(** * agentsync: the clippy maintenance patches and the Rust code they carry

    The repository snapshot consists of three Python scripts
    ([fix_clippy.py], [fix_clippy_v2.py], [fix_clippy_v3.py]) that rewrite
    [src/fs.rs] and [src/mcp.rs] with [str.replace], each replacing an
    "old" Rust snippet by a "new" one.  This development embeds

    - the Rust snippets themselves: the self-nesting guard of the directory
      copier and the [parse_existing] methods of the YAML and Continue
      adapters, in every version the scripts mention;
    - the scripts: Python's [str.replace], text-mode file access, and the
      sequence of reads, replacements and writes of [fix_clippy.py];

    and proves the properties the specification states about them. *)

From Stdlib Require Import Ascii String.
From stdpp Require Import gmap strings list fin_maps pretty.

Set Warnings "-register-all".

(** ** Sequences *)

(** [begins_with s p]: the sequence [s] starts with every element of [p], in
    order.  It is the element-wise test behind both Rust's
    [Path::starts_with] (elements are path components) and the search loop
    of Python's [str.replace] (elements are code points). *)
Fixpoint begins_with {A : Type} `{EqDecision A} (s p : list A) {struct p} : bool :=
match p, s with
| [], _ => true
| _ :: _, [] => false
| a :: p', c :: s' => bool_decide (a = c) && begins_with s' p'
end.

(** ** Rust: errors, [Result] and the [Option] combinators used by the snippets *)

Inductive ErrorKind : Type :=
| NotFound
| NotADirectory
| FilesystemLoop
| InvalidInput.

(** The errors that flow through [anyhow::Result]: an [std::io::Error]
    (kind and message), a [serde_yaml] or [serde_json] error, or any of
    these wrapped by [.context(..)]. *)
Inductive Error : Type :=
| IoError (kind : ErrorKind) (message : string)
| SerdeYamlError (message : string)
| SerdeJsonError (message : string)
| WithContext (ctx : string) (source : Error).

Inductive Result (A : Type) : Type :=
| Ok (value : A)
| Err (error : Error).
Arguments Ok {A} value.
Arguments Err {A} error.

Module RsOption.

(** [Option::and_then] *)
Definition and_then {A B : Type} (o : option A) (f : A -> option B) : option B :=
match o with
| Some x => f x
| None => None
end.

(** [Option::filter] *)
Definition filter {A : Type} (o : option A) (keep : A -> bool) : option A :=
match o with
| Some x => if keep x then Some x else None
| None => None
end.

(** [Option::is_some] *)
Definition is_some {A : Type} (o : option A) : bool :=
match o with
| Some _ => true
| None => false
end.

(** [Option::unwrap_or_default] at [&str], whose default is the empty string *)
Definition unwrap_or_default (o : option string) : string :=
match o with
| Some s => s
| None => EmptyString
end.

End RsOption.

Module RsResult.

(** [Result::ok] *)
Definition ok {A : Type} (r : Result A) : option A :=
match r with
| Ok x => Some x
| Err _ => None
end.

(** [Result::unwrap_or] *)
Definition unwrap_or {A : Type} (r : Result A) (default : A) : A :=
match r with
| Ok x => x
| Err _ => default
end.

(** [anyhow::Context::context] *)
Definition context {A : Type} (r : Result A) (ctx : string) : Result A :=
match r with
| Ok x => Ok x
| Err e => Err (WithContext ctx e)
end.

Definition is_err {A : Type} (r : Result A) : bool :=
match r with
| Ok _ => false
| Err _ => true
end.

End RsResult.

Definition dq : string := String (ascii_of_nat 34) EmptyString.
Definition nl : string := String (ascii_of_nat 10) EmptyString.

(** ** Rust paths, seen through [Path::components] *)

Module Paths.

Inductive Component : Type :=
| RootDir
| CurDir
| ParentDir
| Normal (name : string).

#[global] Instance Component_eq_dec : EqDecision Component.
Proof. solve_decision. Defined.

(** Every operation the guard performs on a path ([parent], [starts_with],
    [fs::canonicalize]) is defined by the standard library on the
    component sequence, so a path is represented by that sequence. *)
Definition Path : Type := list Component.

Fixpoint split_slash (s : string) : list string :=
match s with
| EmptyString => [EmptyString]
| String c s' =>
    if Ascii.eqb c "/"
    then EmptyString :: split_slash s'
    else match split_slash s' with
         | [] => [String c EmptyString]
         | w :: ws => String c w :: ws
         end
end.

Definition piece_component (leading : bool) (w : string) : option Component :=
if String.eqb w "" then None
else if String.eqb w "." then (if leading then Some CurDir else None)
else if String.eqb w ".." then Some ParentDir
else Some (Normal w).

(** [Path::new(s).components()] on Unix: repeated and trailing separators
    and inner [.] segments disappear, a leading [.] is kept. *)
Definition components (s : string) : Path :=
let has_root := String.prefix "/" s in
match split_slash s with
| [] => []
| w :: ws =>
    (if has_root then [RootDir] else [])
      ++ option_list (piece_component (negb has_root) w)
      ++ omap (piece_component false) ws
end.

(** [Path::parent]: the path without its final component; [None] when the
    path is empty or ends in the root. *)
Definition parent (p : Path) : option Path :=
match last p with
| None => None
| Some RootDir => None
| Some _ => Some (removelast p)
end.

(** [Path::starts_with]: whole components only. *)
Definition starts_with (self base : Path) : bool := begins_with self base.

(** [Path::join] *)
Definition join (self other : Path) : Path :=
match other with
| RootDir :: _ => other
| _ => self ++ other
end.

Definition component_text (c : Component) : string :=
match c with
| RootDir => ""
| CurDir => "."
| ParentDir => ".."
| Normal name => name
end.

Definition display (p : Path) : string :=
match p with
| [RootDir] => "/"
| _ => String.concat "/" (component_text <$> p)
end.

(** The [{:?}] rendering of a path: its text between double quotes
    (escapes of unusual characters are not reproduced). *)
Definition debug (p : Path) : string := dq +:+ display p +:+ dq.

End Paths.

(** ** A file system with symbolic links, and [fs::canonicalize] *)

Module Fs.
Import Paths.

Inductive Node : Type :=
| File
| Symlink (target : Path)
| Dir (entries : list (string * Node)).

(** The root is a directory; [cwd] names the working directory by the
    entry names leading to it from the root. *)
Record Filesystem : Type := mkFs {
  root : list (string * Node);
  cwd : list string
}.

Fixpoint lookup_child (entries : list (string * Node)) (name : string) : option Node :=
match entries with
| [] => None
| (n, node) :: rest => if String.eqb n name then Some node else lookup_child rest name
end.

(** The node stored at a location, links not followed. *)
Fixpoint node_at (entries : list (string * Node)) (names : list string) : option Node :=
match names with
| [] => Some (Dir entries)
| x :: rest =>
    match lookup_child entries x with
    | Some (Dir sub) => node_at sub rest
    | Some leaf => match rest with [] => Some leaf | _ :: _ => None end
    | None => None
    end
end.

(** Maximum number of links followed in one resolution (Linux: 40). *)
Definition MAXSYMLINKS : nat := 40.

(** Path resolution as [realpath(3)] does it: components are consumed left
    to right from the location [cur]; a link is replaced by its target; a
    missing entry is an error. *)
Fixpoint realpath (hops : nat) (entries : list (string * Node)) (cur : list string)
    (todo : Path) {struct hops} : Result (list string) :=
match hops with
| O => Err (IoError FilesystemLoop "Too many levels of symbolic links")
| S h =>
    (fix walk (cur : list string) (todo : Path) {struct todo} : Result (list string) :=
       match todo with
       | [] => Ok cur
       | RootDir :: t => walk [] t
       | CurDir :: t => walk cur t
       | ParentDir :: t => walk (removelast cur) t
       | Normal x :: t =>
           match node_at entries (cur ++ [x]) with
           | None => Err (IoError NotFound "No such file or directory")
           | Some (Symlink target) => realpath h entries cur (target ++ t)
           | Some (Dir _) => walk (cur ++ [x]) t
           | Some File =>
               match t with
               | [] => Ok (cur ++ [x])
               | _ :: _ => Err (IoError NotADirectory "Not a directory")
               end
           end
       end) cur todo
end.

Definition absolute (names : list string) : Path := RootDir :: (Normal <$> names).

(** [std::fs::canonicalize]: the absolute, link-free form of an existing
    path; an error when the path does not exist. *)
Definition canonicalize (fs : Filesystem) (p : Path) : Result Path :=
match p with
| [] => Err (IoError NotFound "No such file or directory")
| _ :: _ =>
    match realpath (S MAXSYMLINKS) (root fs) (cwd fs) p with
    | Ok names => Ok (absolute names)
    | Err e => Err e
    end
end.

Definition dir_at (entries : list (string * Node)) (names : list string) : Prop :=
exists sub, node_at entries names = Some (Dir sub).

Definition is_dir_at (fs : Filesystem) (names : list string) : bool :=
match node_at (root fs) names with
| Some (Dir _) => true
| _ => false
end.

End Fs.

(** ** The self-nesting guard of the directory copier ([src/fs.rs]) *)

Module Copier.
Import Paths Fs.

(** [std::io::Error::new(InvalidInput, format!("Cannot copy directory into
    itself: {:?} is inside {:?}", dst_abs, src_canon)).into()] *)
Definition into_itself (dst_abs src_canon : Path) : Error :=
IoError InvalidInput
  ("Cannot copy directory into itself: " +:+ debug dst_abs
     +:+ " is inside " +:+ debug src_canon).

(** [old_fs] of [fix_clippy.py]: three nested conditionals.  [Ok tt] stands
    for "control falls through to the statements after the guard". *)
Definition old_fs_guard (fs : Filesystem) (dst_abs src_canon : Path) : Result unit :=
match parent dst_abs with
| Some parent =>
    match canonicalize fs parent with
    | Ok parent_canon =>
        if starts_with parent_canon src_canon
        then Err (into_itself dst_abs src_canon)
        else Ok tt
    | Err _ => Ok tt
    end
| None => Ok tt
end.

(** [new_fs] of [fix_clippy.py]: the two outer conditionals folded into
    [parent().and_then(|p| fs::canonicalize(p).ok())]. *)
Definition new_fs_guard (fs : Filesystem) (dst_abs src_canon : Path) : Result unit :=
match RsOption.and_then (parent dst_abs) (fun p => RsResult.ok (canonicalize fs p)) with
| Some parent_canon =>
    if starts_with parent_canon src_canon
    then Err (into_itself dst_abs src_canon)
    else Ok tt
| None => Ok tt
end.

(** [old_fs] of [fix_clippy_v3.py]: the test moved into [.filter(..)].  The
    patch touches the header only; the body is the [return Err(..)] of the
    earlier versions. *)
Definition v3_old_fs_guard (fs : Filesystem) (dst_abs src_canon : Path) : Result unit :=
match RsOption.filter
        (RsOption.and_then (parent dst_abs) (fun p => RsResult.ok (canonicalize fs p)))
        (fun p => starts_with p src_canon) with
| Some parent_canon => Err (into_itself dst_abs src_canon)
| None => Ok tt
end.

(** [new_fs] of [fix_clippy_v3.py]: [.is_some()] instead of [if let Some]. *)
Definition v3_new_fs_guard (fs : Filesystem) (dst_abs src_canon : Path) : Result unit :=
if RsOption.is_some
     (RsOption.filter
        (RsOption.and_then (parent dst_abs) (fun p => RsResult.ok (canonicalize fs p)))
        (fun p => starts_with p src_canon))
then Err (into_itself dst_abs src_canon)
else Ok tt.

(** The copier as far as the snippets show it.  The statements after the
    guard (the tree walk that creates the destination entries) are not part
    of the sources; they are the parameter [rest_of_copy], a state
    transformer on the file system.  The guard's [return Err(..)] leaves
    before any of them runs. *)
Definition copy_dir
    (rest_of_copy : Filesystem -> Path -> Path -> Filesystem * Result unit)
    (fs : Filesystem) (src_canon dst_abs : Path) : Filesystem * Result unit :=
match new_fs_guard fs dst_abs src_canon with
| Err e => (fs, Err e)
| Ok _ => rest_of_copy fs src_canon dst_abs
end.

(** Path resolution in the words of the specification (section 4.1): a
    path that exists is canonicalized; for a path that does not exist, the
    nearest existing ancestor is canonicalized and the missing suffix is
    reattached.  [rev_p] is the path with its last component first. *)
Fixpoint spec_resolve_rev (fs : Filesystem) (rev_p : list Component) : Result Path :=
match canonicalize fs (rev rev_p) with
| Ok canon => Ok canon
| Err e =>
    match rev_p with
    | [] => Err e
    | RootDir :: _ => Err e
    | final :: before =>
        match spec_resolve_rev fs before with
        | Ok canon => Ok (canon ++ [final])
        | Err e' => Err e'
        end
    end
end.

Definition spec_resolve (fs : Filesystem) (p : Path) : Result Path :=
spec_resolve_rev fs (rev p).

(** The guard the specification describes: the parent is resolved with
    [spec_resolve], so a missing parent is still checked. *)
Definition spec_guard (fs : Filesystem) (dst_abs src_canon : Path) : Result unit :=
match parent dst_abs with
| Some p =>
    match spec_resolve fs p with
    | Ok parent_canon =>
        if starts_with parent_canon src_canon
        then Err (into_itself dst_abs src_canon)
        else Ok tt
    | Err e => Err e
    end
| None => Ok tt
end.

(** File systems used in the examples. *)

(** [/S] is an empty directory. *)
Definition fs_plain : Filesystem :=
mkFs [("S", Dir [])] [].

(** [/S] is a directory holding a file, and [/L] is a link to [/S]. *)
Definition fs_linked : Filesystem :=
mkFs [("S", Dir [("notes.md", File)]); ("L", Symlink (components "/S"))] [].

(** [/foo/bar] and [/foo/bar2] are sibling directories. *)
Definition fs_siblings : Filesystem :=
mkFs [("foo", Dir [("bar", Dir []); ("bar2", Dir [])])] [].

(** A remainder of the copier that creates the destination directory, used
    to show that the guarded copier really leaves the file system alone. *)
Definition mkdir_at_root (fs : Filesystem) (src_canon dst_abs : Path) : Filesystem * Result unit :=
(mkFs (("copied", Dir []) :: root fs) (cwd fs), Ok tt).

End Copier.

(** ** The adapters' [parse_existing] ([src/mcp.rs]) *)

Module Mcp.

(** [serde_json::Value].  Objects are maps from names to values; numbers
    are kept as integers. *)
Inductive Json : Type :=
| JNull
| JBool (b : bool)
| JNumber (n : Z)
| JString (s : string)
| JArray (items : list Json)
| JObject (fields : gmap string Json).

(** [serde_yaml::Value].  A mapping keeps its entries in document order and
    its keys are arbitrary values, not only strings. *)
Inductive Yaml : Type :=
| YNull
| YBool (b : bool)
| YNumber (n : Z)
| YString (s : string)
| YSequence (items : list Yaml)
| YMapping (entries : list (Yaml * Yaml)).

(** [serde_yaml::Value::as_str] *)
Definition as_str (v : Yaml) : option string :=
match v with
| YString s => Some s
| _ => None
end.

(** [serde_yaml::Value::as_mapping] *)
Definition as_mapping (v : Yaml) : option (list (Yaml * Yaml)) :=
match v with
| YMapping entries => Some entries
| _ => None
end.

Fixpoint mapping_get (entries : list (Yaml * Yaml)) (key : string) : option Yaml :=
match entries with
| [] => None
| (k, v) :: rest =>
    match k with
    | YString s => if String.eqb s key then Some v else mapping_get rest key
    | _ => mapping_get rest key
    end
end.

(** [serde_yaml::Value::get] with a string index: the entry of a mapping
    whose key is that string; [None] on any other value. *)
Definition yaml_get (parsed : Yaml) (key : string) : option Yaml :=
match parsed with
| YMapping entries => mapping_get entries key
| _ => None
end.

(** [serde_json::Value::get] with a string index *)
Definition json_get (parsed : Json) (key : string) : option Json :=
match parsed with
| JObject fields => fields !! key
| _ => None
end.

(** [serde_json::Value::as_object] *)
Definition as_object (v : Json) : option (gmap string Json) :=
match v with
| JObject fields => Some fields
| _ => None
end.

(** The three library entry points the methods call.  Their code is not
    part of the repository; the methods are embedded over any
    implementation of them. *)
Class Serde : Type := {
  serde_yaml_from_str : string -> Result Yaml;
  serde_json_from_str : string -> Result Json;
  serde_json_to_value : Yaml -> Result Json
}.

Section Adapters.
Context `{Serde}.

(** [k.as_str().unwrap_or_default().to_string()] *)
Definition key_str (k : Yaml) : string := RsOption.unwrap_or_default (as_str k).

(** The loop [for (k, v) in obj { .. res.insert(key_str, json_v); }]
    started from the map [res]; the [?] on the conversion leaves the
    method with the error. *)
Fixpoint collect_entries (obj : list (Yaml * Yaml)) (res : gmap string Json)
    : Result (gmap string Json) :=
match obj with
| [] => Ok res
| (k, v) :: rest =>
    let key_str := key_str k in
    match serde_json_to_value v with
    | Err e => Err e
    | Ok json_v => collect_entries rest (<[key_str := json_v]> res)
    end
end.

(** [old_yaml_parse] of [fix_clippy_v2.py] (its conditionals are [old_mcp1]
    of [fix_clippy.py]). *)
Definition old_yaml_parse_existing (wrapper_key : option string) (content : string)
    : Result (gmap string Json) :=
match RsResult.context (serde_yaml_from_str content) "Failed to parse YAML" with
| Err e => Err e
| Ok parsed =>
    match wrapper_key with
    | Some key =>
        match yaml_get parsed key with
        | Some wrapped =>
            match as_mapping wrapped with
            | Some obj => collect_entries obj ∅
            | None => Ok ∅
            end
        | None => Ok ∅
        end
    | None => Ok ∅
    end
end.

(** [new_yaml_parse] of [fix_clippy_v2.py] (its conditional is [new_mcp1]
    of [fix_clippy.py]); [fix_clippy_v3.py] only reflows the same text. *)
Definition new_yaml_parse_existing (wrapper_key : option string) (content : string)
    : Result (gmap string Json) :=
match RsResult.context (serde_yaml_from_str content) "Failed to parse YAML" with
| Err e => Err e
| Ok parsed =>
    match RsOption.and_then
            (RsOption.and_then wrapper_key (fun key => yaml_get parsed key))
            (fun v => as_mapping v) with
    | Some obj => collect_entries obj ∅
    | None => Ok ∅
    end
end.

(** [obj.iter().map(|(k, v)| (k.clone(), v.clone())).collect()] *)
Definition collect_clones (obj : gmap string Json) : gmap string Json :=
list_to_map (map_to_list obj).

(** [old_continue_parse] of [fix_clippy_v2.py] (its conditionals are
    [old_mcp2] of [fix_clippy.py]). *)
Definition old_continue_parse_existing (content : string) : Result (gmap string Json) :=
let parsed := RsResult.unwrap_or (serde_json_from_str content) (JObject ∅) in
match json_get parsed "mcpServers" with
| Some mcp =>
    match as_object mcp with
    | Some obj => Ok (collect_clones obj)
    | None => Ok ∅
    end
| None => Ok ∅
end.

(** [new_continue_parse] of [fix_clippy_v2.py] (its conditional is
    [new_mcp2] of [fix_clippy.py]). *)
Definition new_continue_parse_existing (content : string) : Result (gmap string Json) :=
let parsed := RsResult.unwrap_or (serde_json_from_str content) (JObject ∅) in
match RsOption.and_then (json_get parsed "mcpServers") (fun mcp => as_object mcp) with
| Some obj => Ok (collect_clones obj)
| None => Ok ∅
end.

End Adapters.

(** The entries of a mapping under their string names, a later entry
    replacing an earlier one of the same name. *)
Definition entries_by_name (names : list string) (values : list Json) : gmap string Json :=
list_to_map (reverse (zip names values)).

(** *** A model of [serde_json::to_value] on YAML values *)

(** A map key must serialize as a string: strings are taken as they are,
    numbers and booleans are written out, any other key is refused. *)
Definition map_key (k : Yaml) : Result string :=
match k with
| YString s => Ok s
| YNumber n => Ok (pretty n)
| YBool b => Ok (if b then "true" else "false")
| _ => Err (SerdeJsonError "key must be a string")
end.

Fixpoint to_value (v : Yaml) : Result Json :=
match v with
| YNull => Ok JNull
| YBool b => Ok (JBool b)
| YNumber n => Ok (JNumber n)
| YString s => Ok (JString s)
| YSequence items =>
    (fix seq (items : list Yaml) (done : list Json) : Result Json :=
       match items with
       | [] => Ok (JArray (reverse done))
       | x :: rest =>
           match to_value x with
           | Err e => Err e
           | Ok j => seq rest (j :: done)
           end
       end) items []
| YMapping entries =>
    (fix fields (entries : list (Yaml * Yaml)) (done : gmap string Json) : Result Json :=
       match entries with
       | [] => Ok (JObject done)
       | (k, x) :: rest =>
           match map_key k with
           | Err e => Err e
           | Ok name =>
               match to_value x with
               | Err e => Err e
               | Ok j => fields rest (<[name := j]> done)
               end
           end
       end) entries ∅
end.

(** *** Documents used in the examples *)

(** A parser known on a finite table of texts and failing on every other
    text.  It stands in for [serde_yaml::from_str] and
    [serde_json::from_str] where an example needs concrete outcomes: each
    table below pairs a text with the tree the library yields for it, and
    the malformed texts of the examples are not listed. *)
Definition table_parser {A : Type} (table : list (string * A)) (failure : Error)
    (content : string) : Result A :=
match List.find (fun entry => String.eqb (fst entry) content) table with
| Some entry => Ok (snd entry)
| None => Err failure
end.

Definition yaml_wrapped_text : string :=
"mcpServers: {github: {command: gh}, 7: {command: x}}".

Definition yaml_wrapped_doc : Yaml :=
YMapping
  [(YString "mcpServers",
    YMapping
      [(YString "github", YMapping [(YString "command", YString "gh")]);
       (YNumber 7, YMapping [(YString "command", YString "x")])])].

Definition yaml_numeric_keys_text : string :=
"mcpServers: {1: first, 2: second, named: third}".

Definition yaml_numeric_keys_doc : Yaml :=
YMapping
  [(YString "mcpServers",
    YMapping
      [(YNumber 1, YString "first");
       (YNumber 2, YString "second");
       (YString "named", YString "third")])].

Definition yaml_sequence_key_text : string :=
"mcpServers: {github: {[1, 2]: x}}".

Definition yaml_sequence_key_doc : Yaml :=
YMapping
  [(YString "mcpServers",
    YMapping
      [(YString "github",
        YMapping [(YSequence [YNumber 1; YNumber 2], YString "x")])])].

Definition yaml_scalar_wrapper_text : string := "mcpServers: none".

Definition yaml_scalar_wrapper_doc : Yaml :=
YMapping [(YString "mcpServers", YString "none")].

Definition yaml_corrupt_text : string := "mcpServers: [".

Definition json_wrapped_text : string :=
"{" +:+ dq +:+ "unrelated" +:+ dq +:+ ": 1, " +:+ dq +:+ "mcpServers" +:+ dq
  +:+ ": {" +:+ dq +:+ "a" +:+ dq +:+ ": true}}".

Definition json_wrapped_doc : Json :=
JObject {[ "unrelated" := JNumber 1; "mcpServers" := JObject {[ "a" := JBool true ]} ]}.

Definition json_corrupt_text : string := "{".

#[local] Instance table_serde : Serde := {|
  serde_yaml_from_str :=
    table_parser
      [(yaml_wrapped_text, yaml_wrapped_doc);
       (yaml_numeric_keys_text, yaml_numeric_keys_doc);
       (yaml_sequence_key_text, yaml_sequence_key_doc);
       (yaml_scalar_wrapper_text, yaml_scalar_wrapper_doc)]
      (SerdeYamlError "did not find expected node content");
  serde_json_from_str :=
    table_parser
      [(json_wrapped_text, json_wrapped_doc)]
      (SerdeJsonError "EOF while parsing an object");
  serde_json_to_value := to_value
|}.

(** A wrapper mapping with two numeric keys, the first of which carries a
    value that has a sequence as a key. *)
Definition yaml_unconvertible_text : string :=
"mcpServers: {1: {[1, 2]: x}, 2: second}".

Definition yaml_unconvertible_doc : Yaml :=
YMapping
  [(YString "mcpServers",
    YMapping
      [(YNumber 1, YMapping [(YSequence [YNumber 1; YNumber 2], YString "x")]);
       (YNumber 2, YString "second")])].

#[local] Instance unconvertible_serde : Serde := {|
  serde_yaml_from_str :=
    table_parser
      [(yaml_unconvertible_text, yaml_unconvertible_doc)]
      (SerdeYamlError "did not find expected node content");
  serde_json_from_str :=
    table_parser [] (SerdeJsonError "EOF while parsing an object");
  serde_json_to_value := to_value
|}.

End Mcp.

(** ** ConfigMerger: the locate step of the code, the merge and write-back steps of the specification *)

Module Merger.
Import Mcp.

(** The statements of the YAML [parse_existing] that follow the parse
    ([new_yaml_parse] of [fix_clippy_v2.py], lines 27-39): the locate step
    as the code has it, on the parsed tree.  With no wrapper key the
    working subtree is empty; a value that does not convert is an error;
    a non-string key becomes the empty name. *)
Definition yaml_locate `{Serde} (wrapper_key : option string) (parsed : Yaml)
    : Result (gmap string Json) :=
match RsOption.and_then
        (RsOption.and_then wrapper_key (fun key => yaml_get parsed key))
        (fun v => as_mapping v) with
| Some obj => collect_entries obj ∅
| None => Ok ∅
end.

(** The statements of the Continue [parse_existing] that follow the parse
    ([new_continue_parse] of [fix_clippy_v2.py], lines 55-58). *)
Definition continue_locate (parsed : Json) : Result (gmap string Json) :=
match RsOption.and_then (json_get parsed "mcpServers") (fun mcp => as_object mcp) with
| Some obj => Ok (collect_clones obj)
| None => Ok ∅
end.

(** Modelled from the spec: the merge step of section 4.2, which is not
    among the sources.  "For every name in CanonicalServerSet, set (insert
    or overwrite) that name's value in the working subtree; names in the
    working subtree not present in CanonicalServerSet are left
    untouched." *)
Definition merge_entries (canonical working : gmap string Json) : gmap string Json :=
map_fold (fun name value subtree => <[name := value]> subtree) working canonical.

(** Modelled from the spec: the MergeResult, the merged document together
    with the names that were added or updated. *)
Record MergeResult (Document : Type) : Type := mkMergeResult {
  document : Document;
  changed : gset string
}.
Arguments mkMergeResult {Document} document changed.
Arguments document {Document} _.
Arguments changed {Document} _.

(** *** Continue (JSON) *)

Definition root_fields (doc : Json) : gmap string Json :=
match doc with
| JObject fields => fields
| _ => ∅
end.

(** Modelled from the spec: the write-back step of section 4.2, which is
    not among the sources.  "Splice the updated working subtree back into
    its original position (under the wrapper key if configured ..),
    preserving all sibling keys."  The Continue adapter's key is
    [mcpServers]. *)
Definition continue_write_back (doc : Json) (subtree : gmap string Json) : Json :=
JObject (<["mcpServers" := JObject subtree]> (root_fields doc)).

(** Read-existing (the code's locate), merge, write-back, on the parsed
    document of a Continue destination. *)
Definition continue_merge (canonical : gmap string Json) (existing : Json)
    : Result (MergeResult Json) :=
match continue_locate existing with
| Err e => Err e
| Ok working =>
    Ok (mkMergeResult (continue_write_back existing (merge_entries canonical working))
          (dom canonical))
end.

(** *** YAML *)

(** Modelled from the spec: the merged entries are JSON values and the
    document is a YAML tree, so the write-back step turns each value into
    the YAML value of the same shape ([serde_yaml::to_value] on a
    [serde_json::Value]). *)
Fixpoint yaml_of_json (j : Json) : Yaml :=
match j with
| JNull => YNull
| JBool b => YBool b
| JNumber n => YNumber n
| JString s => YString s
| JArray items => YSequence (yaml_of_json <$> items)
| JObject fields =>
    YMapping
      (map_fold (fun name value entries => (YString name, yaml_of_json value) :: entries)
         [] fields)
end.

(** The working subtree as the entries of a YAML mapping. *)
Definition subtree_entries (subtree : gmap string Json) : list (Yaml * Yaml) :=
map_fold (fun name value entries => (YString name, yaml_of_json value) :: entries)
  [] subtree.

(** The value of the entry [key] is replaced where it stands; with no
    such entry, one is added at the end. *)
Fixpoint set_entry (key : string) (value : Yaml) (entries : list (Yaml * Yaml))
    : list (Yaml * Yaml) :=
match entries with
| [] => [(YString key, value)]
| (k, v) :: rest =>
    match k with
    | YString s =>
        if String.eqb s key then (k, value) :: rest
        else (k, v) :: set_entry key value rest
    | _ => (k, v) :: set_entry key value rest
    end
end.

Definition root_entries (doc : Yaml) : list (Yaml * Yaml) :=
match doc with
| YMapping entries => entries
| _ => []
end.

(** Modelled from the spec: the write-back step of section 4.2.  "Splice
    the updated working subtree back into its original position (under
    the wrapper key if configured, else as the whole document), preserving
    all sibling keys." *)
Definition yaml_write_back (wrapper_key : option string) (doc : Yaml)
    (subtree : gmap string Json) : Yaml :=
match wrapper_key with
| Some key => YMapping (set_entry key (YMapping (subtree_entries subtree)) (root_entries doc))
| None => YMapping (subtree_entries subtree)
end.

(** Read-existing (the code's locate), merge, write-back, on the parsed
    document of a YAML destination.  An error of the locate step ends the
    merge; no document is produced. *)
Definition yaml_merge `{Serde} (wrapper_key : option string)
    (canonical : gmap string Json) (existing : Yaml) : Result (MergeResult Yaml) :=
match yaml_locate wrapper_key existing with
| Err e => Err e
| Ok working =>
    Ok (mkMergeResult
          (yaml_write_back wrapper_key existing (merge_entries canonical working))
          (dom canonical))
end.

(** A measure of JSON values, for induction on their nesting. *)
Fixpoint json_size (j : Json) : nat :=
match j with
| JArray items => S (list_sum (json_size <$> items))
| JObject fields => S (map_fold (fun _ value total => json_size value + total) 0 fields)
| _ => 1
end.

End Merger.

(** ** Python: [str.replace] and text files *)

Module Python.

Section Replace.
Context {A : Type} `{EqDecision A}.

(** The scan of [str.replace] for a non-empty [old]: at each position not
    inside an occurrence already replaced ([skip = 0]), an occurrence of
    [old] starting there is replaced by [new] and its remaining
    [len(old) - 1] elements are skipped; any other element is copied. *)
Fixpoint replace_from (old new : list A) (skip : nat) (s : list A) : list A :=
match s with
| [] => []
| c :: s' =>
    match skip with
    | S k => replace_from old new k s'
    | O =>
        if begins_with s old
        then new ++ replace_from old new (length old - 1) s'
        else c :: replace_from old new 0 s'
    end
end.

(** [s.replace(old, new)]: every occurrence of [old], found left to right
    without overlap, becomes [new]; an empty [old] matches before every
    element and at the end. *)
Definition replace (s old new : list A) : list A :=
match old with
| [] => new ++ flat_map (fun c => c :: new) s
| _ :: _ => replace_from old new 0 s
end.

(** [p in t] *)
Definition occurs (p t : list A) : Prop := exists l r, t = l ++ p ++ r.

(** No non-empty tail of [b] begins with [p] or is itself the beginning of
    [p]. *)
Fixpoint tails_clear (p b : list A) : bool :=
match b with
| [] => true
| _ :: b' => negb (begins_with b p || begins_with p b) && tails_clear p b'
end.

(** A sufficient, computable condition under which writing [new] into a
    text cannot produce an occurrence of [p]: both are non-empty, no
    occurrence of [p] can start inside [new], and none can start before
    [new] and run into it. *)
Definition cannot_create (p new : list A) : bool :=
match p, new with
| _ :: p', _ :: _ => tails_clear p new && tails_clear new p'
| _, _ => false
end.

End Replace.

(** A Python [str]: a sequence of code points. *)
Definition str : Type := list N.

Definition of_string (s : string) : str :=
(fun a => N_of_ascii a) <$> list_ascii_of_string s.

(** The text of a triple-quoted literal, given line by line. *)
Definition snippet (lines : list string) : str := of_string (String.concat nl lines).

Definition CR : N := 13.
Definition LF : N := 10.

(** Reading in text mode with the default [newline=None]: the line endings
    CR LF and CR both arrive as LF. *)
Fixpoint read_text (stored : str) : str :=
match stored with
| [] => []
| c :: rest =>
    if bool_decide (c = CR)
    then LF :: match rest with
               | [] => []
               | c' :: rest' =>
                   if bool_decide (c' = LF) then read_text rest' else read_text rest
               end
    else c :: read_text rest
end.

(** Writing in text mode on a POSIX system, where [os.linesep] is LF:
    the text is stored as it is. *)
Definition write_text (text : str) : str := text.

(** The files of the working copy, by path: the regular files that hold
    text which decodes, can be read and written, and are reached through
    no link, each path naming a file of its own; a path outside the map
    names nothing.  Of the ways [open] can fail, the scripts are followed
    here through the missing file only: a file that does not decode or
    may not be opened, a directory at the path and two paths naming one
    file are not represented, and no property below is stated about
    them. *)
Abbreviation Disk := (gmap string str).

Inductive Outcome : Type :=
| Completed
| FileNotFoundError (path : string).

End Python.

(** ** [fix_clippy.py] *)

Module fix_clippy.
Import Python.

Definition old_fs : str :=
  snippet [
     "        if let Some(parent) = dst_abs.parent() {";
     "            if let Ok(parent_canon) = fs::canonicalize(parent) {";
     "                if parent_canon.starts_with(&src_canon) {";
     "                    return Err(std::io::Error::new(";
     "                        std::io::ErrorKind::InvalidInput,";
     "                        format!(" +:+ dq +:+ "Cannot copy directory into itself: {:?} is inside {:?}" +:+ dq +:+ ", dst_abs, src_canon),";
     "                    ).into());";
     "                }";
     "            }";
     "        }"
  ].

Definition new_fs : str :=
  snippet [
     "        if let Some(parent_canon) = dst_abs.parent().and_then(|p| fs::canonicalize(p).ok()) {";
     "            if parent_canon.starts_with(&src_canon) {";
     "                return Err(std::io::Error::new(";
     "                    std::io::ErrorKind::InvalidInput,";
     "                    format!(" +:+ dq +:+ "Cannot copy directory into itself: {:?} is inside {:?}" +:+ dq +:+ ", dst_abs, src_canon),";
     "                ).into());";
     "            }";
     "        }"
  ].

Definition old_mcp1 : str :=
  snippet [
     "        if let Some(key) = self.wrapper_key {";
     "            if let Some(wrapped) = parsed.get(key) {";
     "                if let Some(obj) = wrapped.as_mapping() {";
     "                   let mut res = HashMap::new();";
     "                   for (k, v) in obj {";
     "                       let key_str = k.as_str().unwrap_or_default().to_string();";
     "                       let json_v = serde_json::to_value(v)?;";
     "                       res.insert(key_str, json_v);";
     "                   }";
     "                   return Ok(res);";
     "                }";
     "            }";
     "        }"
  ].

Definition new_mcp1 : str :=
  snippet [
     "        if let Some(obj) = self.wrapper_key.and_then(|key| parsed.get(key)).and_then(|v| v.as_mapping()) {";
     "            let mut res = HashMap::new();";
     "            for (k, v) in obj {";
     "                let key_str = k.as_str().unwrap_or_default().to_string();";
     "                let json_v = serde_json::to_value(v)?;";
     "                res.insert(key_str, json_v);";
     "            }";
     "            return Ok(res);";
     "        }"
  ].

Definition old_mcp2 : str :=
  snippet [
     "        if let Some(mcp) = parsed.get(" +:+ dq +:+ "mcpServers" +:+ dq +:+ ") {";
     "            if let Some(obj) = mcp.as_object() {";
     "                return Ok(obj.iter().map(|(k, v)| (k.clone(), v.clone())).collect());";
     "            }";
     "        }"
  ].

Definition new_mcp2 : str :=
  snippet [
     "        if let Some(obj) = parsed.get(" +:+ dq +:+ "mcpServers" +:+ dq +:+ ").and_then(|mcp| mcp.as_object()) {";
     "            return Ok(obj.iter().map(|(k, v)| (k.clone(), v.clone())).collect());";
     "        }"
  ].

(** [fs_content.replace(old_fs, new_fs)] *)
Definition patch_fs (fs_content : str) : str := replace fs_content old_fs new_fs.

(** [mcp_content.replace(old_mcp1, new_mcp1).replace(old_mcp2, new_mcp2)] *)
Definition patch_mcp (mcp_content : str) : str :=
replace (replace mcp_content old_mcp1 new_mcp1) old_mcp2 new_mcp2.

(** The script, statement by statement, on a disk as described at
    [Disk].  [open(.., 'r')] on a missing file raises and ends the run
    with the disk as it is at that point; [open(.., 'w')] replaces the
    file's content. *)
Definition run (disk : Disk) : Disk * Outcome :=
match disk !! "src/fs.rs" with
| None => (disk, FileNotFoundError "src/fs.rs")
| Some stored_fs =>
    let fs_content := read_text stored_fs in
    let fs_content := patch_fs fs_content in
    let disk := <["src/fs.rs" := write_text fs_content]> disk in
    match disk !! "src/mcp.rs" with
    | None => (disk, FileNotFoundError "src/mcp.rs")
    | Some stored_mcp =>
        let mcp_content := read_text stored_mcp in
        let mcp_content := patch_mcp mcp_content in
        (<["src/mcp.rs" := write_text mcp_content]> disk, Completed)
    end
end.

End fix_clippy.

(** ** [fix_clippy_v2.py] *)

Module fix_clippy_v2.
Import Python.

Definition old_yaml_parse : str :=
  snippet [
     "    fn parse_existing(&self, content: &str) -> Result<HashMap<String, Value>> {";
     "        let parsed: serde_yaml::Value = serde_yaml::from_str(content).context(" +:+ dq +:+ "Failed to parse YAML" +:+ dq +:+ ")?;";
     "        if let Some(key) = self.wrapper_key {";
     "            if let Some(wrapped) = parsed.get(key) {";
     "                if let Some(obj) = wrapped.as_mapping() {";
     "                   let mut res = HashMap::new();";
     "                   for (k, v) in obj {";
     "                       let key_str = k.as_str().unwrap_or_default().to_string();";
     "                       let json_v = serde_json::to_value(v)?;";
     "                       res.insert(key_str, json_v);";
     "                   }";
     "                   return Ok(res);";
     "                }";
     "            }";
     "        }";
     "        Ok(HashMap::new())";
     "    }"
  ].

Definition new_yaml_parse : str :=
  snippet [
     "    fn parse_existing(&self, content: &str) -> Result<HashMap<String, Value>> {";
     "        let parsed: serde_yaml::Value = serde_yaml::from_str(content).context(" +:+ dq +:+ "Failed to parse YAML" +:+ dq +:+ ")?;";
     "        if let Some(obj) = self.wrapper_key";
     "            .and_then(|key| parsed.get(key))";
     "            .and_then(|v| v.as_mapping())";
     "        {";
     "            let mut res = HashMap::new();";
     "            for (k, v) in obj {";
     "                let key_str = k.as_str().unwrap_or_default().to_string();";
     "                let json_v = serde_json::to_value(v)?;";
     "                res.insert(key_str, json_v);";
     "            }";
     "            return Ok(res);";
     "        }";
     "        Ok(HashMap::new())";
     "    }"
  ].

Definition old_continue_parse : str :=
  snippet [
     "    fn parse_existing(&self, content: &str) -> Result<HashMap<String, Value>> {";
     "        let parsed: Value = serde_json::from_str(content).unwrap_or(json!({}));";
     "        if let Some(mcp) = parsed.get(" +:+ dq +:+ "mcpServers" +:+ dq +:+ ") {";
     "            if let Some(obj) = mcp.as_object() {";
     "                return Ok(obj.iter().map(|(k, v)| (k.clone(), v.clone())).collect());";
     "            }";
     "        }";
     "        Ok(HashMap::new())";
     "    }"
  ].

Definition new_continue_parse : str :=
  snippet [
     "    fn parse_existing(&self, content: &str) -> Result<HashMap<String, Value>> {";
     "        let parsed: Value = serde_json::from_str(content).unwrap_or(json!({}));";
     "        if let Some(obj) = parsed.get(" +:+ dq +:+ "mcpServers" +:+ dq +:+ ").and_then(|mcp| mcp.as_object()) {";
     "            return Ok(obj.iter().map(|(k, v)| (k.clone(), v.clone())).collect());";
     "        }";
     "        Ok(HashMap::new())";
     "    }"
  ].

(** [mcp_content.replace(old_yaml_parse, new_yaml_parse)
      .replace(old_continue_parse, new_continue_parse)] *)
Definition patch_mcp (mcp_content : str) : str :=
replace (replace mcp_content old_yaml_parse new_yaml_parse)
  old_continue_parse new_continue_parse.

(** The script: [src/mcp.rs] is read, patched and written back. *)
Definition run (disk : Disk) : Disk * Outcome :=
match disk !! "src/mcp.rs" with
| None => (disk, FileNotFoundError "src/mcp.rs")
| Some stored_mcp =>
    let mcp_content := read_text stored_mcp in
    let mcp_content := patch_mcp mcp_content in
    (<["src/mcp.rs" := write_text mcp_content]> disk, Completed)
end.

End fix_clippy_v2.

(** ** [fix_clippy_v3.py] *)

Module fix_clippy_v3.
Import Python.

Definition old_fs : str :=
  snippet [
     "        if let Some(parent_canon) = dst_abs";
     "            .parent()";
     "            .and_then(|p| fs::canonicalize(p).ok())";
     "            .filter(|p| p.starts_with(&src_canon))";
     "        {"
  ].

Definition new_fs : str :=
  snippet [
     "        if dst_abs";
     "            .parent()";
     "            .and_then(|p| fs::canonicalize(p).ok())";
     "            .filter(|p| p.starts_with(&src_canon))";
     "            .is_some()";
     "        {"
  ].

Definition old_yaml_parse : str :=
  snippet [
     "    fn parse_existing(&self, content: &str) -> Result<HashMap<String, Value>> {";
     "        let parsed: serde_yaml::Value = serde_yaml::from_str(content).context(" +:+ dq +:+ "Failed to parse YAML" +:+ dq +:+ ")?;";
     "        if let Some(obj) = self.wrapper_key";
     "            .and_then(|key| parsed.get(key))";
     "            .and_then(|v| v.as_mapping())";
     "        {";
     "            let mut res = HashMap::new();";
     "            for (k, v) in obj {";
     "                let key_str = k.as_str().unwrap_or_default().to_string();";
     "                let json_v = serde_json::to_value(v)?;";
     "                res.insert(key_str, json_v);";
     "            }";
     "            return Ok(res);";
     "        }";
     "        Ok(HashMap::new())";
     "    }"
  ].

Definition new_yaml_parse : str :=
  snippet [
     "    fn parse_existing(&self, content: &str) -> Result<HashMap<String, Value>> {";
     "        let parsed: serde_yaml::Value =";
     "            serde_yaml::from_str(content).context(" +:+ dq +:+ "Failed to parse YAML" +:+ dq +:+ ")?;";
     "        if let Some(obj) = self";
     "            .wrapper_key";
     "            .and_then(|key| parsed.get(key))";
     "            .and_then(|v| v.as_mapping())";
     "        {";
     "            let mut res = HashMap::new();";
     "            for (k, v) in obj {";
     "                let key_str = k.as_str().unwrap_or_default().to_string();";
     "                let json_v = serde_json::to_value(v)?;";
     "                res.insert(key_str, json_v);";
     "            }";
     "            return Ok(res);";
     "        }";
     "        Ok(HashMap::new())";
     "    }"
  ].

(** [fs_content.replace(old_fs, new_fs)] *)
Definition patch_fs (fs_content : str) : str := replace fs_content old_fs new_fs.

(** The script, on a disk as described at [Disk]: [src/fs.rs] is read,
    patched and written back; then [src/mcp.rs] is read into
    [mcp_content], and the script ends after binding [old_yaml_parse] and
    [new_yaml_parse], without replacing anything in [mcp_content] and
    without writing it. *)
Definition run (disk : Disk) : Disk * Outcome :=
match disk !! "src/fs.rs" with
| None => (disk, FileNotFoundError "src/fs.rs")
| Some stored_fs =>
    let fs_content := read_text stored_fs in
    let fs_content := patch_fs fs_content in
    let disk := <["src/fs.rs" := write_text fs_content]> disk in
    match disk !! "src/mcp.rs" with
    | None => (disk, FileNotFoundError "src/mcp.rs")
    | Some stored_mcp =>
        let mcp_content := read_text stored_mcp in
        (disk, Completed)
    end
end.

End fix_clippy_v3.

(** ** [scripts/bench_setup.py] *)

Module bench_setup.
Import Python.

(** The text an f-string puts for [{i}] when [i] is a non-negative [int]:
    its decimal digits. *)
Definition str_of_int (i : nat) : str := of_string (pretty i).

(** [sep.join(items)] *)
Definition join (sep : str) (items : list str) : str :=
match items with
| [] => []
| first :: rest => first ++ flat_map (fun item => sep ++ item) rest
end.

(** [range(n)] *)
Definition range (n : nat) : list nat := seq 0 n.

(** The f-string of the list comprehension, for one [i]. *)
Definition agent_section (i : nat) : str :=
of_string ("## Agent ") ++ str_of_int i
  ++ of_string (nl +:+ "This is agent ") ++ str_of_int i
  ++ of_string (" configuration.").

Definition agents_md_content : str :=
of_string ("# Project Agents" +:+ nl +:+ nl)
  ++ join (of_string nl) (agent_section <$> range 1000).

(** The initial value of [config]. *)
Definition config_header : str :=
of_string
  (nl +:+ "source_dir = " +:+ dq +:+ "." +:+ dq +:+ nl +:+ "compress_agents_md = true" +:+ nl +:+ nl +:+ "[gitignore]" +:+ nl +:+ "enabled = false" +:+ nl).

(** The f-string appended to [config] in the loop, for one [i]. *)
Definition agent_block (i : nat) : str :=
of_string (nl +:+ "[agents.agent") ++ str_of_int i
  ++ of_string ("]" +:+ nl +:+ "enabled = true" +:+ nl +:+ "[agents.agent") ++ str_of_int i
  ++ of_string
       (".targets.main]" +:+ nl +:+ "source = " +:+ dq +:+ "AGENTS.md" +:+ dq +:+ nl +:+ "destination = " +:+ dq +:+ "agent")
  ++ str_of_int i
  ++ of_string (".md" +:+ dq +:+ nl +:+ "type = " +:+ dq +:+ "symlink" +:+ dq +:+ nl).

(** [config] after [for i in range(n): config += f"..."]. *)
Definition config_after (n : nat) : str :=
foldl (fun config i => config ++ agent_block i) config_header (range n).

Definition config : str := config_after 100.

(** The working directory of the script: the directories and the regular
    files it holds, by path.  Links and permissions are not represented:
    every path names an object of its own, and every directory and file
    may be written. *)
Record Tree : Type := mkTree {
  dirs : gset string;
  files : gmap string str
}.

Inductive Outcome : Type :=
| Completed
| FileExistsError (path : string)
| IsADirectoryError (path : string).

(** [os.makedirs(path, exist_ok=True)] for a path of one component, in a
    tree as described at [Tree]: an existing directory is accepted, an
    existing regular file raises, and otherwise the directory is created.
    The other failures of [os.makedirs] (a link that leads nowhere, a
    parent that may not be written) need what [Tree] leaves out. *)
Definition makedirs_exist_ok (path : string) (tree : Tree) : option Tree :=
if bool_decide (path ∈ dirs tree) then Some tree
else if bool_decide (is_Some (files tree !! path)) then None
else Some (mkTree ({[ path ]} ∪ dirs tree) (files tree)).

(** [with open(path, "w") as f: f.write(text)], in a tree as described at
    [Tree]: the file is created or replaced; a directory at that path
    raises.  The other failures of [open] need what [Tree] leaves out. *)
Definition write_file (path : string) (text : str) (tree : Tree) : option Tree :=
if bool_decide (path ∈ dirs tree) then None
else Some (mkTree (dirs tree) (<[path := write_text text]> (files tree))).

(** The script, statement by statement. *)
Definition run (tree : Tree) : Tree * Outcome :=
match makedirs_exist_ok ".agents" tree with
| None => (tree, FileExistsError ".agents")
| Some tree =>
    match write_file ".agents/AGENTS.md" agents_md_content tree with
    | None => (tree, IsADirectoryError ".agents/AGENTS.md")
    | Some tree =>
        match write_file ".agents/agentsync.toml" config tree with
        | None => (tree, IsADirectoryError ".agents/agentsync.toml")
        | Some tree => (tree, Completed)
        end
    end
end.

End bench_setup.

(** ** Python: the [in] operator on sequences *)

Module PythonSearch.

(** [p in t] ([str.__contains__]), by trying every position of [t]. *)
Fixpoint contains {A : Type} `{EqDecision A} (t p : list A) : bool :=
begins_with t p ||
match t with
| [] => false
| _ :: t' => contains t' p
end.

End PythonSearch.

(** * Properties *)

(** ** Sequences *)

Section BeginsWith.
Context {A : Type} `{EqDecision A}.
Implicit Types s p t : list A.

Lemma begins_with_spec s p : begins_with s p = true <-> exists r, s = p ++ r.
Proof.
  revert s; induction p as [|a p IH]; intros s; simpl.
  - split; [intros _; by exists s | done].
  - destruct s as [|c s].
    + split; [discriminate | intros [r Hr]; discriminate].
    + rewrite andb_true_iff, bool_decide_eq_true, IH. split.
      * intros [-> [r ->]]. by exists r.
      * intros [r Hr]. injection Hr as -> ->. split; [done | by exists r].
Qed.

Lemma begins_with_app p r : begins_with (p ++ r) p = true.
Proof. apply begins_with_spec. by exists r. Qed.

Lemma begins_with_refl p : begins_with p p = true.
Proof. apply begins_with_spec. exists []. by rewrite app_nil_r. Qed.

Lemma begins_with_nil_inv p : begins_with [] p = true -> p = [].
Proof. destruct p; [done | discriminate]. Qed.

Lemma begins_with_cons_inv c s x o :
  begins_with (c :: s) (x :: o) = true -> x = c /\ begins_with s o = true.
Proof. simpl. rewrite andb_true_iff, bool_decide_eq_true. done. Qed.

Lemma begins_with_length s p : begins_with s p = true -> length p <= length s.
Proof. intros [r ->]%begins_with_spec. rewrite length_app. lia. Qed.

(** A sequence that begins a concatenation either begins its first part or
    extends it. *)
Lemma begins_with_app_overlap x t o :
  begins_with (x ++ t) o = true -> begins_with x o || begins_with o x = true.
Proof.
  revert x; induction o as [|a o IH]; intros x Hbegin.
  - destruct x; reflexivity.
  - destruct x as [|c x]; [by rewrite orb_true_r|].
    apply begins_with_cons_inv in Hbegin as [-> Hbegin]. apply IH in Hbegin.
    simpl. rewrite bool_decide_true by done. exact Hbegin.
Qed.

End BeginsWith.

(** ** Python's [str.replace] *)

Section ReplaceFacts.
Import Python.
Context {A : Type} `{EqDecision A}.
Implicit Types old new p s t : list A.

Lemma replace_from_skip old new pre rest :
  replace_from old new (length pre) (pre ++ rest) = replace_from old new 0 rest.
Proof.
  induction pre as [|c pre IH]; simpl; [|exact IH].
  destruct rest; reflexivity.
Qed.

Lemma replace_from_hit old new a rest :
  replace_from (a :: old) new 0 ((a :: old) ++ rest)
  = new ++ replace_from (a :: old) new 0 rest.
Proof.
  cbn [app replace_from].
  change (a :: old ++ rest) with ((a :: old) ++ rest).
  rewrite begins_with_app. f_equal.
  replace (length (a :: old) - 1) with (length old) by (simpl; lia).
  apply replace_from_skip.
Qed.

Lemma replace_from_miss old new c s :
  begins_with (c :: s) old = false ->
  replace_from old new 0 (c :: s) = c :: replace_from old new 0 s.
Proof. intros Hmiss. cbn [replace_from]. rewrite Hmiss. reflexivity. Qed.

Lemma tails_clear_spec p b b1 c b2 :
  tails_clear p b = true -> b = b1 ++ c :: b2 ->
  begins_with (c :: b2) p || begins_with p (c :: b2) = false.
Proof.
  revert b; induction b1 as [|x b1 IH]; intros b Hclear ->; simpl in Hclear;
    apply andb_true_iff in Hclear as [Hhere Hlater].
  - by apply negb_true_iff.
  - by eapply IH.
Qed.

Lemma cannot_create_inv p new :
  cannot_create p new = true ->
  exists a p' n new', p = a :: p' /\ new = n :: new' /\
    tails_clear p new = true /\ tails_clear new p' = true.
Proof.
  unfold cannot_create. destruct p as [|a p']; [done|].
  destruct new as [|n new']; [done|].
  intros [H1 H2]%andb_true_iff. by exists a, p', n, new'.
Qed.

Lemma cannot_create_nonempty p new : cannot_create p new = true -> p <> [].
Proof. by destruct p. Qed.

Section Patterns.
Variables (old new p : list A).
Hypothesis old_nonempty : old <> [].
Hypothesis p_clear : cannot_create p new = true.

Lemma replace_hit rest : (replace_from old new 0) (old ++ rest) = new ++ (replace_from old new 0) rest.
Proof. destruct old; [done | apply replace_from_hit]. Qed.

(** No tail of [p] can begin where a copy of [new] begins. *)
Lemma no_match_at_new pre o t :
  p = pre ++ o -> o <> [] -> begins_with (new ++ t) o = true -> False.
Proof.
  intros Hpo Ho Hbegin. apply begins_with_app_overlap in Hbegin.
  destruct (cannot_create_inv _ _ p_clear) as (a & p' & n & new' & Ep & En & H1 & H2).
  destruct pre as [|x pre].
  - simpl in Hpo. rewrite <- Hpo in Hbegin.
    assert (begins_with (n :: new') p || begins_with p (n :: new') = false) as Hno
      by (by apply (tails_clear_spec p new [])).
    rewrite <- En in Hno. congruence.
  - rewrite Ep in Hpo. injection Hpo as _ Hp'.
    destruct o as [|y o]; [done|].
    assert (begins_with (y :: o) new || begins_with new (y :: o) = false) as Hno
      by (by apply (tails_clear_spec new p' pre)).
    rewrite orb_comm in Hno. congruence.
Qed.

(** [p] cannot begin inside a copy of [new]. *)
Lemma no_match_inside_new b1 c b2 t :
  new = b1 ++ c :: b2 -> begins_with ((c :: b2) ++ t) p = true -> False.
Proof.
  intros En Hbegin. apply begins_with_app_overlap in Hbegin.
  destruct (cannot_create_inv _ _ p_clear) as (a & p' & n & new' & Ep & _ & H1 & _).
  rewrite (tails_clear_spec p new b1 c b2) in Hbegin; done.
Qed.

(** A tail of [p] found at the start of the output was already at the
    start of the input. *)
Lemma begins_with_replaced s : forall pre o,
  p = pre ++ o -> o <> [] -> begins_with ((replace_from old new 0) s) o = true -> begins_with s o = true.
Proof.
  induction s as [|c s IH]; intros pre o Hpo Ho Hbegin.
  - apply begins_with_nil_inv in Hbegin. done.
  - destruct (begins_with (c :: s) old) eqn:Hm.
    + apply begins_with_spec in Hm as [rest Hm]. rewrite Hm, replace_hit in Hbegin.
      by destruct (no_match_at_new pre o ((replace_from old new 0) rest)).
    + rewrite replace_from_miss in Hbegin by done.
      destruct o as [|x o]; [done|].
      apply begins_with_cons_inv in Hbegin as [-> Hbegin].
      simpl. rewrite bool_decide_true by done. simpl.
      destruct o as [|y o]; [done|].
      apply (IH (pre ++ [c])); [by rewrite <- app_assoc | done | done].
Qed.

(** Where an occurrence of [p] in the output comes from. *)
Lemma occurs_in_replaced s l r :
  (replace_from old new 0) s = l ++ p ++ r ->
  (begins_with s old = true /\ exists rest, s = old ++ rest /\ occurs p ((replace_from old new 0) rest)) \/
  (begins_with s old = false /\
     (begins_with s p = true \/ exists c s', s = c :: s' /\ occurs p ((replace_from old new 0) s'))).
Proof.
  intros Hocc. destruct (begins_with s old) eqn:Hm.
  - left. split; [done|]. apply begins_with_spec in Hm as [rest Hm].
    exists rest. split; [done|]. rewrite Hm, replace_hit in Hocc.
    apply app_eq_inv in Hocc as [[k [H1 H2]]|[k [H1 H2]]].
    + destruct k as [|x k].
      * exists [], r. by simpl in *.
      * destruct (no_match_inside_new l x k ((replace_from old new 0) rest)); [done|].
        rewrite <- H2. apply begins_with_app.
    + by exists k, r.
  - right. split; [done|]. destruct s as [|c s].
    + destruct (cannot_create_inv _ _ p_clear) as (a & p' & _ & _ & Ep & _).
      rewrite Ep in Hocc. by destruct l.
    + rewrite replace_from_miss in Hocc by done.
      destruct l as [|x l].
      * left. apply (begins_with_replaced (c :: s) [] p); [done | |].
        { by eapply cannot_create_nonempty. }
        rewrite replace_from_miss by done. rewrite Hocc.
        simpl. apply begins_with_app.
      * right. injection Hocc as Hx Hocc. exists c, s. split; [done|]. by exists l, r.
Qed.

(** Replacing [old] by [new] creates no occurrence of [p]. *)
Lemma occurs_replaced s : occurs p ((replace_from old new 0) s) -> occurs p s.
Proof.
  remember (length s) as n eqn:Hn. revert s Hn.
  induction n as [n IH] using lt_wf_ind. intros s -> [l [r Hocc]].
  apply occurs_in_replaced in Hocc
    as [[_ (rest & -> & Hocc)]|[_ [Hocc|(c & s' & -> & Hocc)]]].
  - apply (IH (length rest)) in Hocc as [l' [r' ->]]; [|  | done].
    + exists (old ++ l'), r'. by rewrite <- app_assoc.
    + rewrite length_app. destruct old; [done | simpl; lia].
  - apply begins_with_spec in Hocc as [r' ->]. by exists [], r'.
  - apply (IH (length s')) in Hocc as [l' [r' ->]]; [| simpl; lia | done].
    by exists (c :: l'), r'.
Qed.

End Patterns.

(** After the replacement no occurrence of [old] is left. *)
Lemma replace_from_clears old new s :
  cannot_create old new = true -> ~ occurs old (replace_from old new 0 s).
Proof.
  intros Hc. pose proof (cannot_create_nonempty _ _ Hc) as Hne.
  remember (length s) as n eqn:Hn. revert s Hn.
  induction n as [n IH] using lt_wf_ind. intros s -> [l [r Hocc]].
  destruct (occurs_in_replaced old new old Hne Hc s l r Hocc)
    as [[_ (rest & -> & Hrest)]|[Hm [Hhere|(c & s' & -> & Hrest)]]]; [| congruence |].
  - apply (IH (length rest)) in Hrest; [done | | done].
    rewrite length_app. destruct old; [done | simpl; lia].
  - apply (IH (length s')) in Hrest; [done | simpl; lia | done].
Qed.

(** On a text without [old] the replacement changes nothing. *)
Lemma replace_from_absent old new t :
  ~ occurs old t -> replace_from old new 0 t = t.
Proof.
  induction t as [|c t IH]; intros Hno; [done|].
  rewrite replace_from_miss.
  - f_equal. apply IH. intros [l [r ->]]. apply Hno. by exists (c :: l), r.
  - apply not_true_is_false. intros [r Hr]%begins_with_spec.
    apply Hno. exists [], r. by rewrite Hr.
Qed.

Lemma replace_nonempty s old new :
  old <> [] -> replace s old new = replace_from old new 0 s.
Proof. by destruct old. Qed.

Lemma replace_absent s old new :
  old <> [] -> ~ occurs old s -> replace s old new = s.
Proof.
  intros Hne Hno. rewrite replace_nonempty by done. by apply replace_from_absent.
Qed.

Lemma replace_clears s old new :
  cannot_create old new = true -> ~ occurs old (replace s old new).
Proof.
  intros Hc. rewrite replace_nonempty by by eapply cannot_create_nonempty.
  by apply replace_from_clears.
Qed.

Lemma replace_keeps_absent s p old new :
  old <> [] -> cannot_create p new = true ->
  ~ occurs p s -> ~ occurs p (replace s old new).
Proof.
  intros Hne Hc Hs Hocc. rewrite replace_nonempty in Hocc by done.
  by apply occurs_replaced in Hocc.
Qed.

Lemma replace_idempotent s old new :
  cannot_create old new = true ->
  replace (replace s old new) old new = replace s old new.
Proof.
  intros Hc. apply replace_absent; [by eapply cannot_create_nonempty|].
  by apply replace_clears.
Qed.

(** Elements of the output come from the input or from [new]. *)
Lemma replace_from_Forall (P : A -> Prop) old new s : forall skip,
  Forall P new -> Forall P s -> Forall P (replace_from old new skip s).
Proof.
  induction s as [|c s IH]; intros skip Hnew Hs; [done|].
  apply Forall_cons in Hs as [Hc Hs]. simpl. destruct skip as [|k].
  - destruct (begins_with (c :: s) old).
    + apply Forall_app. split; [done | by apply IH].
    + apply Forall_cons. split; [done | by apply IH].
  - by apply IH.
Qed.

End ReplaceFacts.

(** ** [fix_clippy.py] *)

Section TextFiles.
Import Python.

Lemma read_text_no_cr stored : Forall (fun c => c <> CR) (read_text stored).
Proof.
  remember (length stored) as n eqn:Hn. revert stored Hn.
  induction n as [n IH] using lt_wf_ind. intros stored ->.
  destruct stored as [|c rest]; [constructor|]. simpl.
  destruct (bool_decide (c = CR)) eqn:Hc.
  - apply Forall_cons. split; [done|].
    destruct rest as [|c' rest']; [constructor|].
    destruct (bool_decide (c' = LF)).
    + apply (IH (length rest')); [simpl; lia | done].
    + apply (IH (length (c' :: rest'))); [simpl; lia | done].
  - apply Forall_cons. split; [by apply bool_decide_eq_false in Hc|].
    apply (IH (length rest)); [simpl; lia | done].
Qed.

Lemma read_text_without_cr text :
  Forall (fun c => c <> CR) text -> read_text text = text.
Proof.
  induction text as [|c rest IH]; intros Hno; [done|].
  apply Forall_cons in Hno as [Hc Hrest]. simpl.
  rewrite bool_decide_false by done. f_equal. by apply IH.
Qed.

Lemma replace_without_cr (s old new : str) :
  old <> [] -> Forall (fun c => c <> CR) new -> Forall (fun c => c <> CR) s ->
  Forall (fun c => c <> CR) (replace s old new).
Proof.
  intros Hne Hnew Hs. rewrite replace_nonempty by done.
  by apply replace_from_Forall.
Qed.

End TextFiles.

Section FixClippy.
Import Python fix_clippy.

Lemma fs_pair_clear : cannot_create old_fs new_fs = true.
Proof. vm_compute. reflexivity. Qed.

Lemma mcp1_pair_clear : cannot_create old_mcp1 new_mcp1 = true.
Proof. vm_compute. reflexivity. Qed.

Lemma mcp2_pair_clear : cannot_create old_mcp2 new_mcp2 = true.
Proof. vm_compute. reflexivity. Qed.

Lemma mcp1_not_created_by_mcp2 : cannot_create old_mcp1 new_mcp2 = true.
Proof. vm_compute. reflexivity. Qed.

Lemma new_snippets_without_cr :
  Forall (fun c => c <> CR) new_fs /\ Forall (fun c => c <> CR) new_mcp1
  /\ Forall (fun c => c <> CR) new_mcp2.
Proof.
  repeat split;
    match goal with |- ?P => apply (@bool_decide_unpack P _) end;
    vm_compute; exact I.
Qed.

Lemma patch_fs_idempotent s : patch_fs (patch_fs s) = patch_fs s.
Proof. apply replace_idempotent, fs_pair_clear. Qed.

Lemma patch_mcp_idempotent s : patch_mcp (patch_mcp s) = patch_mcp s.
Proof.
  unfold patch_mcp.
  set (t := replace (replace s old_mcp1 new_mcp1) old_mcp2 new_mcp2).
  assert (replace t old_mcp1 new_mcp1 = t) as ->.
  { apply replace_absent; [by eapply cannot_create_nonempty, mcp1_pair_clear|].
    apply replace_keeps_absent.
    - by eapply cannot_create_nonempty, mcp2_pair_clear.
    - apply mcp1_not_created_by_mcp2.
    - apply replace_clears, mcp1_pair_clear. }
  apply replace_idempotent, mcp2_pair_clear.
Qed.

Lemma patch_fs_reread stored :
  patch_fs (read_text (write_text (patch_fs (read_text stored))))
  = patch_fs (read_text stored).
Proof.
  unfold write_text. rewrite read_text_without_cr; [apply patch_fs_idempotent|].
  apply replace_without_cr.
  - by eapply cannot_create_nonempty, fs_pair_clear.
  - apply new_snippets_without_cr.
  - apply read_text_no_cr.
Qed.

Lemma patch_mcp_reread stored :
  patch_mcp (read_text (write_text (patch_mcp (read_text stored))))
  = patch_mcp (read_text stored).
Proof.
  unfold write_text. rewrite read_text_without_cr; [apply patch_mcp_idempotent|].
  unfold patch_mcp. apply replace_without_cr.
  - by eapply cannot_create_nonempty, mcp2_pair_clear.
  - apply new_snippets_without_cr.
  - apply replace_without_cr.
    + by eapply cannot_create_nonempty, mcp1_pair_clear.
    + apply new_snippets_without_cr.
    + apply read_text_no_cr.
Qed.

Lemma run_idempotent disk : run (run disk).1 = run disk.
Proof.
  unfold run at 2 3. destruct (disk !! "src/fs.rs") as [stored_fs|] eqn:Hfs.
  - cbn zeta. rewrite !lookup_insert_ne by done.
    pose proof (patch_fs_reread stored_fs) as HF.
    change (patch_fs (read_text stored_fs))
      with (write_text (patch_fs (read_text stored_fs))) in HF at 2.
    change (patch_fs (read_text (write_text (patch_fs (read_text stored_fs)))))
      with (write_text (patch_fs (read_text (write_text (patch_fs (read_text stored_fs))))))
      in HF.
    set (F := write_text (patch_fs (read_text stored_fs))) in *.
    destruct (disk !! "src/mcp.rs") as [stored_mcp|] eqn:Hmcp; cbn [fst]; unfold run.
    + pose proof (patch_mcp_reread stored_mcp) as HM.
      change (patch_mcp (read_text stored_mcp))
        with (write_text (patch_mcp (read_text stored_mcp))) in HM at 2.
      change (patch_mcp (read_text (write_text (patch_mcp (read_text stored_mcp)))))
        with (write_text (patch_mcp (read_text (write_text (patch_mcp (read_text stored_mcp))))))
        in HM.
      set (M := write_text (patch_mcp (read_text stored_mcp))) in *.
      rewrite lookup_insert_ne, lookup_insert_eq by done. cbn zeta.
      rewrite HF.
      rewrite (insert_id (<["src/mcp.rs":=M]> (<["src/fs.rs":=F]> disk)) "src/fs.rs" F)
        by (by rewrite lookup_insert_ne, lookup_insert_eq).
      rewrite lookup_insert_eq, HM.
      by rewrite insert_insert_eq.
    + rewrite lookup_insert_eq. cbn zeta. rewrite HF.
      rewrite insert_insert_eq. rewrite lookup_insert_ne by done. by rewrite Hmcp.
  - cbn [fst]. unfold run. by rewrite Hfs.
Qed.

(** C10.  The patch of [fix_clippy.py] is idempotent: on any text, replacing
    [old_fs] by [new_fs] twice gives what replacing once gives, and so does
    the chain of the two [mcp.rs] replacements; a second run of the whole
    script leaves every file, and the way the run ends, as the first run
    left them. *)
Theorem fix_clippy_patch_idempotent :
  (forall fs_content : str, patch_fs (patch_fs fs_content) = patch_fs fs_content)
  /\ (forall mcp_content : str, patch_mcp (patch_mcp mcp_content) = patch_mcp mcp_content)
  /\ (forall disk : Disk, run (run disk).1 = run disk).
Proof.
  split; [exact patch_fs_idempotent|].
  split; [exact patch_mcp_idempotent | exact run_idempotent].
Qed.

End FixClippy.

(** ** Paths and the file system *)

Section PathFacts.
Import Paths.

Lemma parent_snoc (p : Path) (name : string) :
  parent (p ++ [Normal name]) = Some p.
Proof. unfold parent. by rewrite last_snoc, removelast_last. Qed.

Lemma removelast_shorter {A : Type} (l : list A) :
  l <> [] -> length (removelast l) < length l.
Proof.
  destruct l as [|x l] using rev_ind; [done|]. intros _.
  rewrite removelast_last, length_app. simpl. lia.
Qed.

Lemma starts_with_spec (child base : Path) :
  starts_with child base = true <-> exists rest, child = base ++ rest.
Proof. apply begins_with_spec. Qed.

Lemma starts_with_refl (p : Path) : starts_with p p = true.
Proof. apply begins_with_refl. Qed.

Lemma append_eq_self (name suffix : string) : name +:+ suffix = name -> suffix = "".
Proof.
  induction name as [|c name IH]; simpl; [done|].
  intros Heq. injection Heq as Heq. by apply IH.
Qed.

(** A sibling whose name merely extends the base's last name is not below
    the base. *)
Lemma starts_with_sibling (dir : Path) (name suffix : string) :
  suffix <> "" ->
  starts_with (dir ++ [Normal (name +:+ suffix)]) (dir ++ [Normal name]) = false.
Proof.
  intros Hsuffix. apply not_true_is_false. intros [rest Hrest]%starts_with_spec.
  rewrite <- app_assoc in Hrest. apply app_inv_head in Hrest.
  injection Hrest as Hname _. by apply append_eq_self in Hname.
Qed.

End PathFacts.

Section FsFacts.
Import Paths Fs.

Lemma dir_at_root entries : dir_at entries [].
Proof. by exists entries. Qed.

(** Only directories have anything below them. *)
Lemma node_at_app entries a b n :
  node_at entries (a ++ b) = Some n -> b <> [] -> dir_at entries a.
Proof.
  revert entries; induction a as [|x a IH]; intros entries Hn Hb.
  - apply dir_at_root.
  - unfold dir_at. simpl in *. destruct (lookup_child entries x) as [[| |sub]|]; try done.
    + by destruct a, b.
    + by destruct a, b.
    + by apply IH.
Qed.

Lemma dir_at_prefix entries a b : dir_at entries (a ++ b) -> dir_at entries a.
Proof.
  intros [sub Hsub]. destruct b as [|x b].
  - rewrite app_nil_r in Hsub. by exists sub.
  - by eapply node_at_app.
Qed.

Lemma dir_at_removelast entries names :
  dir_at entries names -> dir_at entries (removelast names).
Proof.
  intros Hdir. destruct names as [|x names] using rev_ind; [done|].
  rewrite removelast_last. by eapply dir_at_prefix.
Qed.

Lemma realpath_nil h entries cur : realpath (S h) entries cur [] = Ok cur.
Proof. reflexivity. Qed.

Lemma realpath_root h entries cur t :
  realpath (S h) entries cur (RootDir :: t) = realpath (S h) entries [] t.
Proof. reflexivity. Qed.

Lemma realpath_curdir h entries cur t :
  realpath (S h) entries cur (CurDir :: t) = realpath (S h) entries cur t.
Proof. reflexivity. Qed.

Lemma realpath_parentdir h entries cur t :
  realpath (S h) entries cur (ParentDir :: t) = realpath (S h) entries (removelast cur) t.
Proof. reflexivity. Qed.

Lemma realpath_normal h entries cur x t :
  realpath (S h) entries cur (Normal x :: t) =
  match node_at entries (cur ++ [x]) with
  | None => Err (IoError NotFound "No such file or directory")
  | Some (Symlink target) => realpath h entries cur (target ++ t)
  | Some (Dir _) => realpath (S h) entries (cur ++ [x]) t
  | Some File =>
      match t with
      | [] => Ok (cur ++ [x])
      | _ :: _ => Err (IoError NotADirectory "Not a directory")
      end
  end.
Proof. reflexivity. Qed.

(** A resolved location lies in a directory reached through directories
    only. *)
Lemma realpath_parent_is_dir h entries : forall todo cur out,
  realpath h entries cur todo = Ok out ->
  dir_at entries cur -> dir_at entries (removelast out).
Proof.
  induction h as [|h IHh]; [done|].
  induction todo as [|c t IHt]; intros cur out Hout Hcur.
  - rewrite realpath_nil in Hout. injection Hout as <-. by apply dir_at_removelast.
  - destruct c as [| | |x].
    + rewrite realpath_root in Hout. eapply IHt; [done | apply dir_at_root].
    + rewrite realpath_curdir in Hout. by eapply IHt.
    + rewrite realpath_parentdir in Hout.
      eapply IHt; [done | by apply dir_at_removelast].
    + rewrite realpath_normal in Hout.
      destruct (node_at entries (cur ++ [x])) as [[|target|sub]|] eqn:Hx; [| | |done].
      * destruct t; [|done]. injection Hout as <-. by rewrite removelast_last.
      * by eapply IHh.
      * eapply IHt; [done | by exists sub].
Qed.

(** A path through directories only resolves to itself. *)
Lemma realpath_dirs h entries : forall names cur,
  dir_at entries (cur ++ names) ->
  realpath (S h) entries cur (Normal <$> names) = Ok (cur ++ names).
Proof.
  induction names as [|x names IH]; intros cur Hdir.
  - by rewrite fmap_nil, realpath_nil, app_nil_r.
  - rewrite fmap_cons, realpath_normal.
    replace (cur ++ x :: names) with ((cur ++ [x]) ++ names) in * by by rewrite <- app_assoc.
    destruct (dir_at_prefix _ _ _ Hdir) as [sub ->]. by apply IH.
Qed.

(** Below a missing entry nothing resolves. *)
Lemma realpath_missing h entries : forall names cur x more,
  dir_at entries (cur ++ names) ->
  node_at entries (cur ++ names ++ [x]) = None ->
  realpath (S h) entries cur (Normal <$> (names ++ x :: more))
  = Err (IoError NotFound "No such file or directory").
Proof.
  induction names as [|y names IH]; intros cur x more Hdir Hmissing.
  - simpl app. rewrite fmap_cons, realpath_normal. simpl in Hmissing. by rewrite Hmissing.
  - simpl app. rewrite fmap_cons, realpath_normal.
    replace (cur ++ y :: names) with ((cur ++ [y]) ++ names) in * by by rewrite <- app_assoc.
    destruct (dir_at_prefix _ _ _ Hdir) as [sub ->]. apply IH; [done|].
    by rewrite <- app_assoc.
Qed.

Lemma canonicalize_absolute_unfold fs names :
  canonicalize fs (absolute names) =
  match realpath (S MAXSYMLINKS) (root fs) [] (Normal <$> names) with
  | Ok out => Ok (absolute out)
  | Err e => Err e
  end.
Proof. reflexivity. Qed.

Lemma canonicalize_absolute fs names :
  dir_at (root fs) names -> canonicalize fs (absolute names) = Ok (absolute names).
Proof.
  intros Hdir. rewrite canonicalize_absolute_unfold.
  by rewrite (realpath_dirs _ _ names []).
Qed.

Lemma canonicalize_missing fs names x more :
  dir_at (root fs) names ->
  node_at (root fs) (names ++ [x]) = None ->
  canonicalize fs (absolute (names ++ x :: more))
  = Err (IoError NotFound "No such file or directory").
Proof.
  intros Hdir Hmissing. rewrite canonicalize_absolute_unfold.
  by rewrite (realpath_missing _ _ names []).
Qed.

Lemma canonicalize_inv fs p canon :
  canonicalize fs p = Ok canon ->
  exists names, canon = absolute names
    /\ realpath (S MAXSYMLINKS) (root fs) (cwd fs) p = Ok names.
Proof.
  unfold canonicalize. destruct p; [done|].
  destruct (realpath _ _ _ _) as [names|]; [|done].
  intros [= <-]. by exists names.
Qed.

Lemma is_dir_at_spec fs names : is_dir_at fs names = true <-> dir_at (root fs) names.
Proof.
  unfold is_dir_at, dir_at. destruct (node_at (root fs) names) as [[| |sub]|]; split;
    try done; try (by intros [? ?]). by exists sub.
Qed.

Lemma parent_absolute names :
  parent (absolute names) =
  match names with
  | [] => None
  | _ :: _ => Some (absolute (removelast names))
  end.
Proof.
  destruct names as [|x names] using rev_ind; [done|].
  unfold absolute. rewrite fmap_app. simpl.
  change (RootDir :: (Normal <$> names) ++ [Normal x])
    with ((RootDir :: (Normal <$> names)) ++ [Normal x]).
  rewrite parent_snoc, removelast_last. by destruct names.
Qed.

End FsFacts.

(** ** The self-nesting guard *)

Section CopierFacts.
Import Paths Fs Copier.

(** The three rewrites of the guard ([fix_clippy.py], and the two sides of
    [fix_clippy_v3.py]) behave as the nested conditionals did. *)
Lemma guards_agree fs dst_abs src_canon :
  old_fs_guard fs dst_abs src_canon = new_fs_guard fs dst_abs src_canon
  /\ v3_old_fs_guard fs dst_abs src_canon = new_fs_guard fs dst_abs src_canon
  /\ v3_new_fs_guard fs dst_abs src_canon = new_fs_guard fs dst_abs src_canon.
Proof.
  unfold old_fs_guard, new_fs_guard, v3_old_fs_guard, v3_new_fs_guard.
  destruct (parent dst_abs) as [p|]; simpl; [|done].
  destruct (canonicalize fs p) as [parent_canon|]; simpl; [|done].
  by destruct (starts_with parent_canon src_canon).
Qed.

Lemma new_fs_guard_rejects fs dst_abs src_canon p parent_canon :
  parent dst_abs = Some p ->
  canonicalize fs p = Ok parent_canon ->
  starts_with parent_canon src_canon = true ->
  new_fs_guard fs dst_abs src_canon = Err (into_itself dst_abs src_canon).
Proof.
  intros Hparent Hcanon Hinside. unfold new_fs_guard.
  rewrite Hparent. simpl. rewrite Hcanon. simpl. by rewrite Hinside.
Qed.

Lemma new_fs_guard_absorbs fs dst_abs src_canon p e :
  parent dst_abs = Some p ->
  canonicalize fs p = Err e ->
  new_fs_guard fs dst_abs src_canon = Ok tt.
Proof.
  intros Hparent Hcanon. unfold new_fs_guard.
  rewrite Hparent. simpl. by rewrite Hcanon.
Qed.

Lemma new_fs_guard_passes fs dst_abs src_canon p parent_canon :
  parent dst_abs = Some p ->
  canonicalize fs p = Ok parent_canon ->
  starts_with parent_canon src_canon = false ->
  new_fs_guard fs dst_abs src_canon = Ok tt.
Proof.
  intros Hparent Hcanon Houtside. unfold new_fs_guard.
  rewrite Hparent. simpl. rewrite Hcanon. simpl. by rewrite Houtside.
Qed.

(** The guard rejects exactly when the destination's parent exists and its
    canonical form is at or below the canonical source. *)
Lemma new_fs_guard_err_iff fs dst_abs src_canon e :
  new_fs_guard fs dst_abs src_canon = Err e <->
  e = into_itself dst_abs src_canon /\
  exists p parent_canon,
    parent dst_abs = Some p /\ canonicalize fs p = Ok parent_canon
    /\ starts_with parent_canon src_canon = true.
Proof.
  unfold new_fs_guard. split.
  - destruct (parent dst_abs) as [p|]; simpl; [|done].
    destruct (canonicalize fs p) as [parent_canon|] eqn:Hcanon; simpl; [|done].
    destruct (starts_with parent_canon src_canon) eqn:Hinside; [|done].
    intros [= <-]. split; [done|]. by exists p, parent_canon.
  - intros [-> (p & parent_canon & -> & Hcanon & Hinside)]. simpl.
    rewrite Hcanon. simpl. by rewrite Hinside.
Qed.

(** C1.  For a source [src] that exists, with canonical form [src_canon],
    and the destination [src/sub], the copier ends with the [InvalidInput]
    error "Cannot copy directory into itself: .." and with the file system
    it started from: no entry is created, under [src/sub] or anywhere. *)
Theorem self_nesting_rejected
    (rest_of_copy : Filesystem -> Path -> Path -> Filesystem * Result unit)
    (fs : Filesystem) (src : Path) (sub : string) (src_canon : Path) :
  canonicalize fs src = Ok src_canon ->
  let dst_abs := join src [Normal sub] in
  let outcome := copy_dir rest_of_copy fs src_canon dst_abs in
  outcome.2 = Err (IoError InvalidInput
                     ("Cannot copy directory into itself: " +:+ debug dst_abs
                        +:+ " is inside " +:+ debug src_canon))
  /\ outcome.1 = fs
  /\ forall names, node_at (root outcome.1) names = node_at (root fs) names.
Proof.
  intros Hcanon dst_abs outcome. subst outcome. unfold copy_dir.
  rewrite (new_fs_guard_rejects fs dst_abs src_canon src src_canon).
  - done.
  - apply parent_snoc.
  - exact Hcanon.
  - apply starts_with_refl.
Qed.

Lemma self_nesting_rejected_witness :
  canonicalize fs_linked (components "/L") = Ok (components "/S")
  /\ copy_dir mkdir_at_root fs_linked (components "/S") (components "/L/sub")
     = (fs_linked,
        Err (IoError InvalidInput
               ("Cannot copy directory into itself: " +:+ debug (components "/L/sub")
                  +:+ " is inside " +:+ debug (components "/S")))).
Proof.
  assert (canonicalize fs_linked (components "/L") = Ok (components "/S")) as Hcanon
    by (vm_compute; reflexivity).
  split; [exact Hcanon|].
  destruct (self_nesting_rejected mkdir_at_root fs_linked (components "/L") "sub"
              (components "/S") Hcanon) as (Herr & Hfs & _).
  change (join (components "/L") [Normal "sub"]) with (components "/L/sub") in Herr, Hfs.
  destruct (copy_dir mkdir_at_root fs_linked (components "/S") (components "/L/sub"))
    as [fs' result].
  simpl in Herr, Hfs. by rewrite Herr, Hfs.
Defined.

(** C2 (as amended).  When the destination's parent exists, the guard
    canonicalizes it and rejects with the structural error whenever the
    canonical parent lies inside the canonical source.  When the parent
    does not exist, [fs::canonicalize] fails, [.ok()] absorbs the failure,
    and the guard lets the request through: no error is raised for the
    missing path, and there is no walk up to an existing ancestor. *)
Theorem guard_checks_existing_parent_only
    (fs : Filesystem) (dst_abs src_canon p : Path) :
  parent dst_abs = Some p ->
  (forall parent_canon,
      canonicalize fs p = Ok parent_canon ->
      starts_with parent_canon src_canon = true ->
      new_fs_guard fs dst_abs src_canon = Err (into_itself dst_abs src_canon)
      /\ v3_new_fs_guard fs dst_abs src_canon = Err (into_itself dst_abs src_canon))
  /\ (forall e,
      canonicalize fs p = Err e ->
      new_fs_guard fs dst_abs src_canon = Ok tt
      /\ v3_new_fs_guard fs dst_abs src_canon = Ok tt)
  /\ (forall dir x more,
      p = absolute (dir ++ x :: more) ->
      dir_at (root fs) dir ->
      node_at (root fs) (dir ++ [x]) = None ->
      new_fs_guard fs dst_abs src_canon = Ok tt
      /\ v3_new_fs_guard fs dst_abs src_canon = Ok tt).
Proof.
  intros Hparent.
  destruct (guards_agree fs dst_abs src_canon) as (_ & _ & ->).
  split; [|split].
  - intros parent_canon Hcanon Hinside. split; by eapply new_fs_guard_rejects.
  - intros e Hcanon. split; by eapply new_fs_guard_absorbs.
  - intros dir x more -> Hdir Hmissing.
    split; eapply new_fs_guard_absorbs; try done; by apply canonicalize_missing.
Qed.

Lemma guard_checks_existing_parent_only_witness :
  parent (components "/S/a/b") = Some (components "/S/a")
  /\ canonicalize fs_plain (components "/S/a")
     = Err (IoError NotFound "No such file or directory")
  /\ new_fs_guard fs_plain (components "/S/a/b") (components "/S") = Ok tt
  /\ v3_new_fs_guard fs_plain (components "/S/a/b") (components "/S") = Ok tt.
Proof.
  assert (parent (components "/S/a/b") = Some (components "/S/a")) as Hparent
    by reflexivity.
  assert (canonicalize fs_plain (components "/S/a")
          = Err (IoError NotFound "No such file or directory")) as Hcanon
    by (vm_compute; reflexivity).
  split; [exact Hparent|]. split; [exact Hcanon|].
  destruct (guard_checks_existing_parent_only fs_plain (components "/S/a/b")
              (components "/S") (components "/S/a") Hparent) as (_ & Habsorb & _).
  exact (Habsorb _ Hcanon).
Defined.

(** C2, the claim as stated, fails: [/S] exists, [/S/a] does not, and the
    destination is [/S/a/b].  Resolving the parent as the specification
    describes gives [/S/a], inside the source [/S], and a guard built on
    that resolution rejects; the guard of the code does not. *)
Lemma missing_parent_not_rejected :
  canonicalize fs_plain (components "/S") = Ok (components "/S")
  /\ parent (components "/S/a/b") = Some (components "/S/a")
  /\ spec_resolve fs_plain (components "/S/a") = Ok (components "/S/a")
  /\ starts_with (components "/S/a") (components "/S") = true
  /\ spec_guard fs_plain (components "/S/a/b") (components "/S")
     = Err (into_itself (components "/S/a/b") (components "/S"))
  /\ new_fs_guard fs_plain (components "/S/a/b") (components "/S") = Ok tt
  /\ v3_new_fs_guard fs_plain (components "/S/a/b") (components "/S") = Ok tt
  /\ copy_dir mkdir_at_root fs_plain (components "/S") (components "/S/a/b")
     = mkdir_at_root fs_plain (components "/S") (components "/S/a/b").
Proof. repeat split; vm_compute; reflexivity. Qed.

(** C4 (as amended).  The guard rejects exactly when the destination's
    parent exists and its canonical form is at or below the canonical
    source.  A destination that is the canonical source path itself is
    therefore let through: its parent is the source's parent. *)
Theorem equal_destination_passes_guard :
  (forall (fs : Filesystem) (dst_abs src_canon : Path) (e : Error),
      new_fs_guard fs dst_abs src_canon = Err e <->
      e = into_itself dst_abs src_canon /\
      exists p parent_canon,
        parent dst_abs = Some p /\ canonicalize fs p = Ok parent_canon
        /\ starts_with parent_canon src_canon = true)
  /\ (forall (fs : Filesystem) (src src_canon : Path),
      is_dir_at fs (cwd fs) = true ->
      canonicalize fs src = Ok src_canon ->
      new_fs_guard fs src_canon src_canon = Ok tt).
Proof.
  split; [exact new_fs_guard_err_iff|].
  intros fs src src_canon Hcwd Hcanon.
  apply canonicalize_inv in Hcanon as (names & -> & Hreal).
  apply is_dir_at_spec in Hcwd.
  pose proof (realpath_parent_is_dir _ _ _ _ _ Hreal Hcwd) as Hdir.
  unfold new_fs_guard. rewrite parent_absolute.
  destruct names as [|x names]; [done|]. cbn [RsOption.and_then].
  rewrite (canonicalize_absolute _ _ Hdir). cbn [RsResult.ok].
  destruct (starts_with (absolute (removelast (x :: names))) (absolute (x :: names)))
    eqn:Hinside; [|done].
  apply begins_with_length in Hinside. unfold absolute in Hinside.
  cbn [length] in Hinside. rewrite !length_fmap in Hinside.
  assert (x :: names <> []) as Hshorter by done.
  apply removelast_shorter in Hshorter.
  cbn [length] in Hshorter, Hinside. exfalso. lia.
Qed.

Lemma equal_destination_passes_guard_witness :
  is_dir_at fs_linked (cwd fs_linked) = true
  /\ canonicalize fs_linked (components "/L") = Ok (components "/S")
  /\ new_fs_guard fs_linked (components "/S") (components "/S") = Ok tt.
Proof.
  assert (is_dir_at fs_linked (cwd fs_linked) = true) as Hcwd by reflexivity.
  assert (canonicalize fs_linked (components "/L") = Ok (components "/S")) as Hcanon
    by (vm_compute; reflexivity).
  split; [exact Hcwd|]. split; [exact Hcanon|].
  exact (proj2 equal_destination_passes_guard fs_linked (components "/L")
           (components "/S") Hcwd Hcanon).
Defined.

(** C4, the claim as stated, fails: with [/S] an existing directory, the
    destination [/S] is canonically equal to the source [/S]; the guard
    lets the request through and the remainder of the copier runs. *)
Lemma equal_destination_not_rejected :
  canonicalize fs_plain (components "/S") = Ok (components "/S")
  /\ new_fs_guard fs_plain (components "/S") (components "/S") = Ok tt
  /\ copy_dir mkdir_at_root fs_plain (components "/S") (components "/S")
     = (mkFs [("copied", Dir []); ("S", Dir [])] [], Ok tt).
Proof. repeat split; vm_compute; reflexivity. Qed.

(** C7.  Containment is decided on whole components.  The guard rejects
    exactly when the destination has a parent, the parent has a canonical
    form, and the components of the canonical source begin the components
    of that canonical parent.  Whenever the destination's parent exists,
    the guard rejects exactly when the components of the canonical source
    begin the components of the canonical parent, and lets the request
    through exactly when they do not.  So a parent that is a sibling whose name extends the source's
    name passes; in particular [/foo/bar2] is not inside [/foo/bar],
    although the text [/foo/bar] begins the text [/foo/bar2], while
    [/foo/bar] itself and everything below it is inside. *)
Theorem containment_is_componentwise :
  (forall (fs : Filesystem) (dst_abs src_canon : Path) (e : Error),
      new_fs_guard fs dst_abs src_canon = Err e
      <-> e = into_itself dst_abs src_canon
          /\ exists p parent_canon rest,
               parent dst_abs = Some p
               /\ canonicalize fs p = Ok parent_canon
               /\ parent_canon = src_canon ++ rest)
  /\ (forall (fs : Filesystem) (dst_abs src_canon p parent_canon : Path),
      parent dst_abs = Some p ->
      canonicalize fs p = Ok parent_canon ->
      (new_fs_guard fs dst_abs src_canon = Err (into_itself dst_abs src_canon)
         <-> exists rest, parent_canon = src_canon ++ rest)
      /\ (new_fs_guard fs dst_abs src_canon = Ok tt
         <-> ~ exists rest, parent_canon = src_canon ++ rest))
  /\ (forall (fs : Filesystem) (dst_abs p dir : Path) (name suffix : string),
      suffix <> "" ->
      parent dst_abs = Some p ->
      canonicalize fs p = Ok (dir ++ [Normal (name +:+ suffix)]) ->
      new_fs_guard fs dst_abs (dir ++ [Normal name]) = Ok tt)
  /\ (forall child base : Path,
      starts_with child base = true <-> exists rest, child = base ++ rest)
  /\ (forall (dir : Path) (name suffix : string),
      suffix <> "" ->
      starts_with (dir ++ [Normal (name +:+ suffix)]) (dir ++ [Normal name]) = false)
  /\ starts_with (components "/foo/bar2") (components "/foo/bar") = false
  /\ String.prefix "/foo/bar" "/foo/bar2" = true
  /\ (forall (fs : Filesystem) (dst_abs p : Path),
      parent dst_abs = Some p ->
      canonicalize fs p = Ok (components "/foo/bar2") ->
      new_fs_guard fs dst_abs (components "/foo/bar") = Ok tt).
Proof.
  split; [|split; [|split; [|split; [exact starts_with_spec|]]]].
  - intros fs dst_abs src_canon e. rewrite new_fs_guard_err_iff. split.
    + intros [-> (p & parent_canon & Hparent & Hcanon & [rest ->]%starts_with_spec)].
      split; [done|]. by exists p, (src_canon ++ rest), rest.
    + intros [-> (p & parent_canon & rest & Hparent & Hcanon & ->)].
      split; [done|]. exists p, (src_canon ++ rest).
      split; [done|]. split; [done|]. apply starts_with_spec. by exists rest.
  - intros fs dst_abs src_canon p parent_canon Hparent Hcanon.
    destruct (starts_with parent_canon src_canon) eqn:Hinside.
    + rewrite (new_fs_guard_rejects _ _ _ _ _ Hparent Hcanon Hinside).
      apply starts_with_spec in Hinside.
      split; [by split|]. split; [discriminate|]. intros Hnot. by destruct Hnot.
    + rewrite (new_fs_guard_passes _ _ _ _ _ Hparent Hcanon Hinside).
      assert (~ exists rest, parent_canon = src_canon ++ rest) as Hnot
        by (intros Hrest%starts_with_spec; congruence).
      split; [|by split]. split; [discriminate|]. intros Hrest. by destruct Hnot.
  - intros fs dst_abs p dir name suffix Hsuffix Hparent Hcanon.
    eapply new_fs_guard_passes; [done | done |]. by apply starts_with_sibling.
  - split; [exact starts_with_sibling|].
    split; [reflexivity|]. split; [reflexivity|].
    intros fs dst_abs p Hparent Hcanon.
    by eapply new_fs_guard_passes.
Qed.

Lemma containment_is_componentwise_witness :
  parent (components "/foo/bar2/x") = Some (components "/foo/bar2")
  /\ canonicalize fs_siblings (components "/foo/bar2") = Ok (components "/foo/bar2")
  /\ new_fs_guard fs_siblings (components "/foo/bar2/x") (components "/foo/bar") = Ok tt
  /\ parent (components "/foo/bar/x") = Some (components "/foo/bar")
  /\ canonicalize fs_siblings (components "/foo/bar") = Ok (components "/foo/bar")
  /\ new_fs_guard fs_siblings (components "/foo/bar/x") (components "/foo/bar")
     = Err (into_itself (components "/foo/bar/x") (components "/foo/bar")).
Proof.
  assert (parent (components "/foo/bar2/x") = Some (components "/foo/bar2")) as Hparent
    by reflexivity.
  assert (canonicalize fs_siblings (components "/foo/bar2")
          = Ok (components "/foo/bar2")) as Hcanon by (vm_compute; reflexivity).
  assert (parent (components "/foo/bar/x") = Some (components "/foo/bar")) as Hparent'
    by reflexivity.
  assert (canonicalize fs_siblings (components "/foo/bar")
          = Ok (components "/foo/bar")) as Hcanon' by (vm_compute; reflexivity).
  destruct containment_is_componentwise as (_ & Hdecide & Hsibling & _).
  split; [exact Hparent|]. split; [exact Hcanon|]. split.
  { assert ("2" <> "") as Hsuffix by discriminate.
    exact (Hsibling fs_siblings (components "/foo/bar2/x") (components "/foo/bar2")
             (components "/foo") "bar" "2" Hsuffix Hparent Hcanon). }
  split; [exact Hparent'|]. split; [exact Hcanon'|].
  apply (Hdecide fs_siblings (components "/foo/bar/x") (components "/foo/bar")
           (components "/foo/bar") (components "/foo/bar") Hparent' Hcanon').
  exists []. reflexivity.
Defined.

End CopierFacts.

(** ** [parse_existing] *)

Section AdapterFacts.
Import Mcp.
Context `{Serde}.

Lemma collect_clones_id (obj : gmap string Json) : collect_clones obj = obj.
Proof. apply list_to_map_to_list. Qed.

Lemma collect_entries_app (a b : list (Yaml * Yaml)) (res : gmap string Json) :
  collect_entries (a ++ b) res =
  match collect_entries a res with
  | Ok partial => collect_entries b partial
  | Err e => Err e
  end.
Proof.
  revert res; induction a as [|[k v] a IH]; intros res; simpl; [done|].
  destruct (serde_json_to_value v); [apply IH | done].
Qed.

Lemma collect_entries_cons_ok k v json_v rest (res : gmap string Json) :
  serde_json_to_value v = Ok json_v ->
  collect_entries ((k, v) :: rest) res
  = collect_entries rest (<[key_str k := json_v]> res).
Proof. intros Hv. simpl. by rewrite Hv. Qed.

(** The loop completes when every value converts. *)
Lemma collect_entries_total (obj : list (Yaml * Yaml)) : forall res : gmap string Json,
  Forall (fun entry => exists json_v, serde_json_to_value entry.2 = Ok json_v) obj ->
  exists out, collect_entries obj res = Ok out.
Proof.
  induction obj as [|[k v] obj IH]; intros res Hall; simpl.
  - by exists res.
  - apply Forall_cons in Hall as [[json_v Hv] Hall]. simpl in Hv. rewrite Hv.
    by apply IH.
Qed.

(** The loop stops at the first value that does not convert. *)
Lemma collect_entries_first_error (before : list (Yaml * Yaml)) k v after e :
  forall res : gmap string Json,
  Forall (fun entry => exists json_v, serde_json_to_value entry.2 = Ok json_v) before ->
  serde_json_to_value v = Err e ->
  collect_entries (before ++ (k, v) :: after) res = Err e.
Proof.
  intros res Hbefore Hv. rewrite collect_entries_app.
  destruct (collect_entries_total before res Hbefore) as [partial ->].
  simpl. by rewrite Hv.
Qed.

Lemma collect_entries_size (obj : list (Yaml * Yaml)) : forall res out : gmap string Json,
  collect_entries obj res = Ok out -> size out <= size res + length obj.
Proof.
  induction obj as [|[k v] obj IH]; intros res out Hout; simpl in *.
  - injection Hout as <-. lia.
  - destruct (serde_json_to_value v) as [json_v|]; [|done].
    apply IH in Hout.
    pose proof (map_size_insert (key_str k) json_v res) as Hsize.
    destruct (res !! key_str k); simpl in *; lia.
Qed.

Lemma collect_entries_keeps (obj : list (Yaml * Yaml)) name :
  forall res out : gmap string Json,
  collect_entries obj res = Ok out -> is_Some (res !! name) -> is_Some (out !! name).
Proof.
  induction obj as [|[k v] obj IH]; intros res out Hout Hname; simpl in *.
  - by injection Hout as <-.
  - destruct (serde_json_to_value v) as [json_v|]; [|done].
    eapply IH; [done|]. rewrite lookup_insert. by case_decide.
Qed.

Lemma collect_entries_other (obj : list (Yaml * Yaml)) name :
  forall res out : gmap string Json,
  collect_entries obj res = Ok out ->
  Forall (fun entry => key_str entry.1 <> name) obj ->
  out !! name = res !! name.
Proof.
  induction obj as [|[k v] obj IH]; intros res out Hout Hother; simpl in *.
  - by injection Hout as <-.
  - destruct (serde_json_to_value v) as [json_v|]; [|done].
    apply Forall_cons in Hother as [Hk Hother]. simpl in Hk.
    rewrite (IH _ _ Hout Hother). by rewrite lookup_insert_ne.
Qed.

Lemma foldl_insert_union (l : list (string * Json)) : forall res : gmap string Json,
  foldl (fun m entry => <[entry.1 := entry.2]> m) res l
  = list_to_map (reverse l) ∪ res.
Proof.
  induction l as [|[name json_v] l IH]; intros res; simpl.
  - by rewrite (left_id ∅ (∪)).
  - rewrite IH, reverse_cons, list_to_map_app. simpl.
    rewrite <- (assoc_L (∪)). f_equal.
    by rewrite <- insert_union_l, (left_id ∅ (∪)).
Qed.

Lemma collect_entries_by_name (obj : list (Yaml * Yaml)) : forall values res,
  Forall2 (fun entry json_v => serde_json_to_value entry.2 = Ok json_v) obj values ->
  collect_entries obj res
  = Ok (foldl (fun m entry => <[entry.1 := entry.2]> m) res
          (zip (key_str <$> obj.*1) values)).
Proof.
  induction obj as [|[k v] obj IH]; intros values res Hconv.
  - by apply Forall2_nil_inv_l in Hconv as ->.
  - apply Forall2_cons_inv_l in Hconv as (json_v & values' & Hv & Hconv & ->).
    simpl in *. rewrite Hv. by apply IH.
Qed.

Lemma yaml_parse_existing_pipeline wrapper_key content :
  new_yaml_parse_existing wrapper_key content
  = old_yaml_parse_existing wrapper_key content.
Proof.
  unfold new_yaml_parse_existing, old_yaml_parse_existing.
  destruct (RsResult.context (serde_yaml_from_str content) "Failed to parse YAML")
    as [parsed|e]; [|done].
  destruct wrapper_key as [key|]; simpl; [|done].
  destruct (yaml_get parsed key) as [wrapped|]; simpl; [|done].
  by destruct (as_mapping wrapped).
Qed.

Lemma continue_parse_existing_pipeline content :
  new_continue_parse_existing content = old_continue_parse_existing content.
Proof.
  unfold new_continue_parse_existing, old_continue_parse_existing. cbv zeta.
  destruct (json_get _ "mcpServers") as [mcp|]; simpl; [|done].
  by destruct (as_object mcp).
Qed.

Lemma yaml_parse_existing_located key content parsed :
  serde_yaml_from_str content = Ok parsed ->
  new_yaml_parse_existing (Some key) content =
  match RsOption.and_then (yaml_get parsed key) as_mapping with
  | Some obj => collect_entries obj ∅
  | None => Ok ∅
  end.
Proof. intros Hparsed. unfold new_yaml_parse_existing. by rewrite Hparsed. Qed.

End AdapterFacts.

Section AdapterClaims.
Import Mcp.
Context `{Serde}.

(** C3 (as amended).  The Continue (JSON) adapter treats an unparsable
    file as the empty tree and returns the empty server set.  The YAML
    adapter does not: its [parse_existing] returns the parser's error,
    wrapped with the context "Failed to parse YAML", whatever the wrapper
    key. *)
Theorem parse_failure_by_adapter (content : string) :
  (forall e,
      serde_json_from_str content = Err e ->
      new_continue_parse_existing content = Ok ∅
      /\ old_continue_parse_existing content = Ok ∅)
  /\ (forall e wrapper_key,
      serde_yaml_from_str content = Err e ->
      new_yaml_parse_existing wrapper_key content
        = Err (WithContext "Failed to parse YAML" e)
      /\ old_yaml_parse_existing wrapper_key content
        = Err (WithContext "Failed to parse YAML" e)).
Proof.
  split.
  - intros e Hfail. rewrite <- continue_parse_existing_pipeline.
    unfold new_continue_parse_existing. by rewrite Hfail.
  - intros e wrapper_key Hfail. rewrite <- yaml_parse_existing_pipeline.
    unfold new_yaml_parse_existing. by rewrite Hfail.
Qed.

(** C5 (as amended).  With a wrapper key configured and the document
    parsed: if the document has that key and its value is a mapping whose
    values all convert to JSON, the result is that mapping's entries under
    their string names (a non-string key under the empty name, a later
    entry replacing an earlier one of the same name); if one of its values
    does not convert, the result is the error of the first such value; if
    the key is absent or its value is not a mapping, the result is the
    empty set.  The Continue adapter, whose key is [mcpServers], returns
    the object under that key, and the empty set when there is none. *)
Theorem locate_wrapper_subtree (key content : string) (parsed : Yaml) :
  serde_yaml_from_str content = Ok parsed ->
  (forall obj values,
      RsOption.and_then (yaml_get parsed key) as_mapping = Some obj ->
      Forall2 (fun entry json_v => serde_json_to_value entry.2 = Ok json_v) obj values ->
      new_yaml_parse_existing (Some key) content
        = Ok (entries_by_name (key_str <$> obj.*1) values))
  /\ (forall before k v after e,
      RsOption.and_then (yaml_get parsed key) as_mapping
        = Some (before ++ (k, v) :: after) ->
      Forall (fun entry => exists json_v, serde_json_to_value entry.2 = Ok json_v)
        before ->
      serde_json_to_value v = Err e ->
      new_yaml_parse_existing (Some key) content = Err e)
  /\ (RsOption.and_then (yaml_get parsed key) as_mapping = None ->
      new_yaml_parse_existing (Some key) content = Ok ∅)
  /\ (forall json_content json_parsed,
      serde_json_from_str json_content = Ok json_parsed ->
      new_continue_parse_existing json_content =
      match RsOption.and_then (json_get json_parsed "mcpServers") as_object with
      | Some obj => Ok obj
      | None => Ok ∅
      end).
Proof.
  intros Hparsed. split; [|split; [|split]].
  - intros obj values Hobj Hconv.
    rewrite (yaml_parse_existing_located _ _ _ Hparsed), Hobj.
    rewrite (collect_entries_by_name _ _ _ Hconv), foldl_insert_union.
    by rewrite (right_id ∅ (∪)).
  - intros before k v after e Hobj Hbefore Hv.
    rewrite (yaml_parse_existing_located _ _ _ Hparsed), Hobj.
    by apply collect_entries_first_error.
  - intros Hnone. by rewrite (yaml_parse_existing_located _ _ _ Hparsed), Hnone.
  - intros json_content json_parsed Hjson. unfold new_continue_parse_existing.
    rewrite Hjson. simpl.
    destruct (RsOption.and_then _ _); [by rewrite collect_clones_id | done].
Qed.

(** C6.  The combinator pipeline returns what the nested conditionals
    returned, for the YAML adapter (any wrapper key, any content) and for
    the Continue adapter. *)
Theorem combinator_pipeline_equivalent :
  (forall wrapper_key content,
      new_yaml_parse_existing wrapper_key content
      = old_yaml_parse_existing wrapper_key content)
  /\ (forall content,
      new_continue_parse_existing content = old_continue_parse_existing content).
Proof.
  split; [exact yaml_parse_existing_pipeline | exact continue_parse_existing_pipeline].
Qed.

(** C9 (as amended).  A key of the wrapper mapping that is not a string
    is entered under the empty name.  So when two entries of the mapping
    have non-string keys, every value converts, and the second is the last
    entry iterated under the empty name, the result holds a single entry
    named [""], carrying the value of the second, and has fewer entries
    than the mapping had: the names of the parsed entries are not kept
    apart.  When a value of the mapping does not convert, there is no
    result at all: [parse_existing] returns the error of the first such
    value. *)
Theorem non_string_keys_collapse :
  (forall k : Yaml, as_str k = None -> key_str k = "")
  /\ (forall (key content : string) (parsed : Yaml)
        (before between after : list (Yaml * Yaml)) (k1 v1 k2 v2 : Yaml),
      let obj := before ++ (k1, v1) :: between ++ (k2, v2) :: after in
      serde_yaml_from_str content = Ok parsed ->
      RsOption.and_then (yaml_get parsed key) as_mapping = Some obj ->
      as_str k1 = None ->
      as_str k2 = None ->
      Forall (fun entry => key_str entry.1 <> "") after ->
      Forall (fun entry => exists json_v, serde_json_to_value entry.2 = Ok json_v) obj ->
      exists res json_v2,
        new_yaml_parse_existing (Some key) content = Ok res
        /\ serde_json_to_value v2 = Ok json_v2
        /\ res !! "" = Some json_v2
        /\ size res < length obj)
  /\ (forall (key content : string) (parsed : Yaml)
        (before after : list (Yaml * Yaml)) (k v : Yaml) (e : Error),
      serde_yaml_from_str content = Ok parsed ->
      RsOption.and_then (yaml_get parsed key) as_mapping
        = Some (before ++ (k, v) :: after) ->
      Forall (fun entry => exists json_v, serde_json_to_value entry.2 = Ok json_v)
        before ->
      serde_json_to_value v = Err e ->
      new_yaml_parse_existing (Some key) content = Err e).
Proof.
  assert (forall k : Yaml, as_str k = None -> key_str k = "") as Hempty
    by (intros k Hk; unfold key_str; by rewrite Hk).
  split; [exact Hempty|]. split; [|
    intros key content parsed before after k v e Hparsed Hobj Hbefore Hv;
    rewrite (yaml_parse_existing_located _ _ _ Hparsed), Hobj;
    by apply collect_entries_first_error].
  intros key content parsed before between after k1 v1 k2 v2 obj
    Hparsed Hobj Hk1 Hk2 Hafter Hconv.
  pose proof (Hempty k1 Hk1) as Hname1. pose proof (Hempty k2 Hk2) as Hname2.
  rewrite (yaml_parse_existing_located _ _ _ Hparsed), Hobj.
  subst obj.
  apply Forall_app in Hconv as [Hbefore Hconv].
  apply Forall_cons in Hconv as [[json_v1 Hv1] Hconv].
  apply Forall_app in Hconv as [Hbetween Hconv].
  apply Forall_cons in Hconv as [[json_v2 Hv2] Hconv_after].
  simpl in Hv1, Hv2.
  destruct (collect_entries_total before ∅ Hbefore) as [m0 Hm0].
  destruct (collect_entries_total between (<["" := json_v1]> m0) Hbetween) as [m1 Hm1].
  destruct (collect_entries_total after (<["" := json_v2]> m1) Hconv_after) as [res Hres].
  exists res, json_v2.
  assert (collect_entries (before ++ (k1, v1) :: between ++ (k2, v2) :: after) ∅
          = Ok res) as Hall.
  { rewrite collect_entries_app, Hm0.
    rewrite (collect_entries_cons_ok _ _ _ _ _ Hv1), Hname1.
    rewrite collect_entries_app, Hm1.
    by rewrite (collect_entries_cons_ok _ _ _ _ _ Hv2), Hname2. }
  split; [done|]. split; [done|]. split.
  - rewrite (collect_entries_other _ _ _ _ Hres Hafter). apply lookup_insert_eq.
  - apply collect_entries_size in Hm0, Hres.
    pose proof (collect_entries_size _ _ _ Hm1) as Hsize1.
    assert (is_Some (m1 !! "")) as Hkept.
    { eapply collect_entries_keeps; [done|]. rewrite lookup_insert_eq. by eexists. }
    rewrite (map_size_insert_Some _ _ _ Hkept) in Hres.
    pose proof (map_size_insert "" json_v1 m0) as Hsize0.
    rewrite map_size_empty in Hm0.
    rewrite !length_app. cbn [length]. rewrite length_app. cbn [length].
    destruct (m0 !! ""); simpl in Hsize0; lia.
Qed.

End AdapterClaims.

Section AdapterExamples.
Import Mcp.
#[local] Existing Instance table_serde.

Lemma parse_failure_by_adapter_witness :
  serde_json_from_str json_corrupt_text
    = Err (SerdeJsonError "EOF while parsing an object")
  /\ serde_yaml_from_str yaml_corrupt_text
    = Err (SerdeYamlError "did not find expected node content")
  /\ new_continue_parse_existing json_corrupt_text = Ok ∅
  /\ new_yaml_parse_existing (Some "mcpServers") yaml_corrupt_text
    = Err (WithContext "Failed to parse YAML"
             (SerdeYamlError "did not find expected node content")).
Proof.
  assert (serde_json_from_str json_corrupt_text
          = Err (SerdeJsonError "EOF while parsing an object")) as Hjson
    by reflexivity.
  assert (serde_yaml_from_str yaml_corrupt_text
          = Err (SerdeYamlError "did not find expected node content")) as Hyaml
    by reflexivity.
  split; [exact Hjson|]. split; [exact Hyaml|]. split.
  - exact (proj1 (proj1 (parse_failure_by_adapter json_corrupt_text) _ Hjson)).
  - exact (proj1 (proj2 (parse_failure_by_adapter yaml_corrupt_text) _
                    (Some "mcpServers") Hyaml)).
Defined.

(** C3, the claim as stated, fails for the YAML adapter: on a text the
    YAML parser refuses, [parse_existing] returns an error, not the empty
    set.  This holds for the parser of the examples and refutes the claim
    for every implementation of the parser that refuses some text. *)
Lemma yaml_parse_failure_surfaced :
  RsResult.is_err (serde_yaml_from_str yaml_corrupt_text) = true
  /\ new_yaml_parse_existing (Some "mcpServers") yaml_corrupt_text
     = Err (WithContext "Failed to parse YAML"
              (SerdeYamlError "did not find expected node content"))
  /\ ~ (forall (lib : Serde) (wrapper_key : option string) (content : string),
           RsResult.is_err (@serde_yaml_from_str lib content) = true ->
           @new_yaml_parse_existing lib wrapper_key content = Ok ∅).
Proof.
  split; [reflexivity|]. split; [reflexivity|].
  intros Hclaim.
  specialize (Hclaim table_serde (Some "mcpServers") yaml_corrupt_text eq_refl).
  discriminate Hclaim.
Qed.

Lemma locate_wrapper_subtree_witness :
  serde_yaml_from_str yaml_wrapped_text = Ok yaml_wrapped_doc
  /\ RsOption.and_then (yaml_get yaml_wrapped_doc "mcpServers") as_mapping
     = Some [(YString "github", YMapping [(YString "command", YString "gh")]);
             (YNumber 7, YMapping [(YString "command", YString "x")])]
  /\ new_yaml_parse_existing (Some "mcpServers") yaml_wrapped_text
     = Ok (entries_by_name ["github"; ""]
             [JObject {[ "command" := JString "gh" ]};
              JObject {[ "command" := JString "x" ]}])
  /\ new_yaml_parse_existing (Some "mcpServers") yaml_scalar_wrapper_text = Ok ∅
  /\ new_yaml_parse_existing (Some "mcpServers") yaml_sequence_key_text
     = Err (SerdeJsonError "key must be a string")
  /\ new_continue_parse_existing json_wrapped_text = Ok {[ "a" := JBool true ]}.
Proof.
  assert (serde_yaml_from_str yaml_wrapped_text = Ok yaml_wrapped_doc) as Hparsed
    by reflexivity.
  split; [exact Hparsed|]. split; [reflexivity|].
  destruct (locate_wrapper_subtree "mcpServers" yaml_wrapped_text yaml_wrapped_doc Hparsed)
    as (Hfound & _ & _ & Hjson).
  split.
  { apply (Hfound
             [(YString "github", YMapping [(YString "command", YString "gh")]);
              (YNumber 7, YMapping [(YString "command", YString "x")])]
             [JObject {[ "command" := JString "gh" ]};
              JObject {[ "command" := JString "x" ]}]); [reflexivity|].
    repeat constructor. }
  split.
  { assert (serde_yaml_from_str yaml_scalar_wrapper_text = Ok yaml_scalar_wrapper_doc)
      as Hscalar by reflexivity.
    destruct (locate_wrapper_subtree "mcpServers" _ _ Hscalar) as (_ & _ & Hnone & _).
    apply Hnone. reflexivity. }
  split.
  { assert (serde_yaml_from_str yaml_sequence_key_text = Ok yaml_sequence_key_doc)
      as Hseq by reflexivity.
    destruct (locate_wrapper_subtree "mcpServers" _ _ Hseq) as (_ & Hfail & _ & _).
    apply (Hfail [] (YString "github")
             (YMapping [(YSequence [YNumber 1; YNumber 2], YString "x")]) []);
      [reflexivity | constructor | reflexivity]. }
  rewrite (Hjson json_wrapped_text json_wrapped_doc eq_refl).
  vm_compute. reflexivity.
Defined.

(** C5, the claim as stated, fails: the document has the wrapper key and
    its value is a mapping, yet no subtree is returned, because the value
    of its entry [github] has a sequence as a key and does not convert to
    JSON; [parse_existing] returns the conversion error. *)
Lemma wrapper_mapping_not_returned :
  serde_yaml_from_str yaml_sequence_key_text = Ok yaml_sequence_key_doc
  /\ RsOption.and_then (yaml_get yaml_sequence_key_doc "mcpServers") as_mapping
     = Some [(YString "github",
              YMapping [(YSequence [YNumber 1; YNumber 2], YString "x")])]
  /\ new_yaml_parse_existing (Some "mcpServers") yaml_sequence_key_text
     = Err (SerdeJsonError "key must be a string")
  /\ old_yaml_parse_existing (Some "mcpServers") yaml_sequence_key_text
     = Err (SerdeJsonError "key must be a string").
Proof. repeat split; vm_compute; reflexivity. Qed.

Lemma non_string_keys_collapse_witness :
  serde_yaml_from_str yaml_numeric_keys_text = Ok yaml_numeric_keys_doc
  /\ RsOption.and_then (yaml_get yaml_numeric_keys_doc "mcpServers") as_mapping
     = Some ([] ++ (YNumber 1, YString "first")
                :: [] ++ (YNumber 2, YString "second")
                :: [(YString "named", YString "third")])
  /\ exists res json_v2,
      new_yaml_parse_existing (Some "mcpServers") yaml_numeric_keys_text = Ok res
      /\ serde_json_to_value (YString "second") = Ok json_v2
      /\ res !! "" = Some json_v2
      /\ size res < 3.
Proof.
  assert (serde_yaml_from_str yaml_numeric_keys_text = Ok yaml_numeric_keys_doc)
    as Hparsed by reflexivity.
  split; [exact Hparsed|]. split; [reflexivity|].
  refine (proj1 (proj2 non_string_keys_collapse) "mcpServers" yaml_numeric_keys_text
            yaml_numeric_keys_doc [] [] [(YString "named", YString "third")]
            (YNumber 1) (YString "first") (YNumber 2) (YString "second")
            Hparsed eq_refl eq_refl eq_refl _ _).
  - repeat constructor. simpl. discriminate.
  - repeat constructor; by eexists.
Defined.

(** C9, the claim as stated, fails: the wrapper mapping has two
    non-string keys, [1] and [2], but the value under [1] has a sequence
    as a key and does not convert to JSON.  [parse_existing] returns the
    conversion error; there is no working subtree and no entry named
    [""]. *)
Lemma non_string_keys_without_entry :
  @serde_yaml_from_str unconvertible_serde yaml_unconvertible_text
    = Ok yaml_unconvertible_doc
  /\ RsOption.and_then (yaml_get yaml_unconvertible_doc "mcpServers") as_mapping
     = Some [(YNumber 1, YMapping [(YSequence [YNumber 1; YNumber 2], YString "x")]);
             (YNumber 2, YString "second")]
  /\ as_str (YNumber 1) = None
  /\ as_str (YNumber 2) = None
  /\ @new_yaml_parse_existing unconvertible_serde (Some "mcpServers")
       yaml_unconvertible_text
     = Err (SerdeJsonError "key must be a string")
  /\ ~ (exists res json_v,
          @new_yaml_parse_existing unconvertible_serde (Some "mcpServers")
            yaml_unconvertible_text = Ok res
          /\ res !! "" = Some json_v).
Proof.
  assert (@new_yaml_parse_existing unconvertible_serde (Some "mcpServers")
            yaml_unconvertible_text
          = Err (SerdeJsonError "key must be a string")) as Herr
    by (vm_compute; reflexivity).
  repeat split; try reflexivity; try exact Herr.
  intros (res & json_v & Hres & _). rewrite Herr in Hres. discriminate Hres.
Qed.

End AdapterExamples.

(** ** ConfigMerger *)

Section MergerFacts.
Import Mcp Merger.

(** The locate steps are the tails of the [parse_existing] methods. *)
Lemma yaml_parse_existing_locate `{Serde} wrapper_key content :
  new_yaml_parse_existing wrapper_key content =
  match RsResult.context (serde_yaml_from_str content) "Failed to parse YAML" with
  | Err e => Err e
  | Ok parsed => yaml_locate wrapper_key parsed
  end.
Proof. reflexivity. Qed.

Lemma continue_parse_existing_locate `{Serde} content :
  new_continue_parse_existing content =
  continue_locate (RsResult.unwrap_or (serde_json_from_str content) (JObject ∅)).
Proof. reflexivity. Qed.

(** Setting every canonical entry in turn amounts to a union in which the
    canonical entries win. *)
Lemma merge_entries_union (canonical working : gmap string Json) :
  merge_entries canonical working = canonical ∪ working.
Proof.
  unfold merge_entries.
  apply (map_fold_weak_ind (fun result (seen : gmap string Json) => result = seen ∪ working)).
  - by rewrite (left_id ∅ (∪)).
  - intros name value seen result _ ->. by rewrite insert_union_l.
Qed.

Lemma merge_entries_twice (canonical working : gmap string Json) :
  merge_entries canonical (merge_entries canonical working)
  = merge_entries canonical working.
Proof.
  rewrite !merge_entries_union. by rewrite (assoc_L (∪)), (idemp_L (∪)).
Qed.

(** Entries the canonical set does not name are left as they were. *)
Lemma merge_entries_untouched (canonical working : gmap string Json) (name : string) :
  canonical !! name = None ->
  merge_entries canonical working !! name = working !! name.
Proof.
  intros Hname. rewrite merge_entries_union. by apply lookup_union_r.
Qed.

Lemma continue_locate_write_back existing (subtree : gmap string Json) :
  continue_locate (continue_write_back existing subtree) = Ok subtree.
Proof.
  unfold continue_locate, continue_write_back. simpl.
  rewrite lookup_insert_eq. simpl. unfold collect_clones.
  by rewrite list_to_map_to_list.
Qed.

Lemma continue_locate_total existing : exists working, continue_locate existing = Ok working.
Proof.
  unfold continue_locate. destruct (RsOption.and_then _ _); by eexists.
Qed.

Lemma mapping_get_set_entry key value entries :
  mapping_get (set_entry key value entries) key = Some value.
Proof.
  induction entries as [|[k v] entries IH]; simpl.
  - by rewrite String.eqb_refl.
  - destruct k; simpl; try exact IH.
    destruct (String.eqb s key) eqn:Hs; simpl; rewrite Hs; [done | exact IH].
Qed.

Lemma mapping_get_set_entry_other key other value entries :
  other <> key ->
  mapping_get (set_entry key value entries) other = mapping_get entries other.
Proof.
  intros Hother. induction entries as [|[k v] entries IH]; simpl.
  - apply String.eqb_neq in Hother. rewrite String.eqb_sym in Hother. by rewrite Hother.
  - destruct k; simpl; try exact IH.
    destruct (String.eqb s key) eqn:Hs; simpl.
    + apply String.eqb_eq in Hs as ->.
      apply String.eqb_neq in Hother. rewrite String.eqb_sym in Hother. by rewrite Hother.
    + by rewrite IH.
Qed.

Lemma set_entry_twice key first second entries :
  set_entry key second (set_entry key first entries) = set_entry key second entries.
Proof.
  induction entries as [|[k v] entries IH]; simpl.
  - by rewrite String.eqb_refl.
  - destruct k; simpl; try (by rewrite IH).
    destruct (String.eqb s key) eqn:Hs; simpl; rewrite Hs; [done | by rewrite IH].
Qed.

Lemma subtree_entries_insert (subtree : gmap string Json) name value :
  subtree !! name = None ->
  map_first_key (<[name := value]> subtree) name ->
  subtree_entries (<[name := value]> subtree)
  = (YString name, yaml_of_json value) :: subtree_entries subtree.
Proof.
  intros Hname Hfirst. unfold subtree_entries.
  by rewrite (map_fold_insert_first_key
                (fun name value entries => (YString name, yaml_of_json value) :: entries)).
Qed.

(** Reading back the entries written for a subtree gives the subtree,
    when every value written converts back to itself. *)
Lemma collect_subtree_entries `{Serde} (subtree : gmap string Json) :
  map_Forall (fun _ value => serde_json_to_value (yaml_of_json value) = Ok value) subtree ->
  forall res, collect_entries (subtree_entries subtree) res = Ok (subtree ∪ res).
Proof.
  induction subtree as [|name value subtree Hname Hfirst IH] using map_first_key_ind;
    intros Hback res.
  - unfold subtree_entries. rewrite map_fold_empty. simpl. by rewrite (left_id ∅ (∪)).
  - rewrite subtree_entries_insert by done.
    apply map_Forall_insert in Hback as [Hvalue Hback]; [|done].
    rewrite (collect_entries_cons_ok _ _ _ _ _ Hvalue).
    rewrite IH by done. unfold key_str. simpl.
    by rewrite <- insert_union_r, insert_union_l.
Qed.

Lemma yaml_locate_write_back `{Serde} key existing (subtree : gmap string Json) :
  map_Forall (fun _ value => serde_json_to_value (yaml_of_json value) = Ok value) subtree ->
  yaml_locate (Some key) (yaml_write_back (Some key) existing subtree) = Ok subtree.
Proof.
  intros Hback. unfold yaml_locate, yaml_write_back. simpl.
  rewrite mapping_get_set_entry. simpl.
  rewrite (collect_subtree_entries _ Hback). by rewrite (right_id ∅ (∪)).
Qed.

Lemma yaml_write_back_twice wrapper_key existing (first second : gmap string Json) :
  yaml_write_back wrapper_key (yaml_write_back wrapper_key existing first) second
  = yaml_write_back wrapper_key existing second.
Proof.
  destruct wrapper_key as [key|]; simpl; [|done]. by rewrite set_entry_twice.
Qed.

(** *** The model of [serde_json::to_value] reads back what [yaml_of_json] writes *)

Lemma json_size_field (fields : gmap string Json) name value :
  fields !! name = Some value -> json_size value < json_size (JObject fields).
Proof.
  simpl. revert name value.
  induction fields as [|i x fields Hi Hfirst IH] using map_first_key_ind;
    intros name value Hvalue.
  - by rewrite lookup_empty in Hvalue.
  - rewrite map_fold_insert_first_key by done.
    destruct (decide (name = i)) as [->|Hne].
    + rewrite lookup_insert_eq in Hvalue. injection Hvalue as ->.
      apply Nat.lt_succ_r, Nat.le_add_r.
    + rewrite lookup_insert_ne in Hvalue by done. specialize (IH _ _ Hvalue).
      eapply Nat.lt_le_trans; [exact IH|]. apply le_n_S, Nat.le_add_l.
Qed.

Lemma json_size_item (items : list Json) (item : Json) :
  item ∈ items -> json_size item < json_size (JArray items).
Proof.
  simpl. induction items as [|x items IH]; intros Hin; [by apply elem_of_nil in Hin|].
  apply elem_of_cons in Hin as [->|Hin]; cbn [fmap list_fmap list_sum].
  - apply Nat.lt_succ_r, Nat.le_add_r.
  - specialize (IH Hin). eapply Nat.lt_le_trans; [exact IH|].
    apply le_n_S, Nat.le_add_l.
Qed.

Lemma to_value_sequence (items : list Json) :
  Forall (fun item => to_value (yaml_of_json item) = Ok item) items ->
  to_value (YSequence (yaml_of_json <$> items)) = Ok (JArray items).
Proof.
  intros Hitems. cbn [to_value].
  change items with (reverse [] ++ items) at 2.
  generalize (@nil Json) as done. induction Hitems as [|x items Hx Hitems IH]; intros done.
  - simpl. by rewrite app_nil_r.
  - cbn [fmap list_fmap]. rewrite Hx. rewrite IH, reverse_cons, <- app_assoc. done.
Qed.

Lemma to_value_mapping (fields : gmap string Json) :
  map_Forall (fun _ value => to_value (yaml_of_json value) = Ok value) fields ->
  to_value (YMapping (subtree_entries fields)) = Ok (JObject fields).
Proof.
  intros Hfields. cbn [to_value].
  rewrite <- (right_id ∅ (∪) fields) at 2.
  generalize (∅ : gmap string Json) as done. revert Hfields.
  induction fields as [|name value fields Hname Hfirst IH] using map_first_key_ind;
    intros Hfields done.
  - unfold subtree_entries. rewrite map_fold_empty. by rewrite (left_id ∅ (∪)).
  - rewrite subtree_entries_insert by done.
    apply map_Forall_insert in Hfields as [Hvalue Hfields]; [|done].
    cbn [map_key]. rewrite Hvalue. rewrite IH by done.
    by rewrite <- insert_union_r, insert_union_l.
Qed.

Lemma to_value_yaml_of_json (j : Json) : to_value (yaml_of_json j) = Ok j.
Proof.
  remember (json_size j) as n eqn:Hn. revert j Hn.
  induction n as [n IH] using lt_wf_ind. intros j ->.
  destruct j as [| | | |items|fields]; try reflexivity.
  - apply to_value_sequence. apply Forall_forall. intros item Hitem.
    apply (IH (json_size item)); [by apply json_size_item | done].
  - apply to_value_mapping. intros name value Hvalue.
    apply (IH (json_size value)); [by eapply json_size_field | done].
Qed.

(** C8.  Merging the same canonical set into the document produced by a
    first merge gives that document again, with the same set of names
    reported.  The first step of a merge is the locate step of the code
    ([parse_existing] after the parse); the merge and write-back steps
    are the specification's.  For the Continue adapter every merge
    produces a document.  For the YAML adapter a merge produces a
    document when the locate step succeeds, and the second merge reads
    back the values the first one wrote: this holds for every
    implementation of [serde_json::to_value] that reads back what
    [yaml_of_json] writes, and the model [to_value] does. *)
Theorem merge_idempotent :
  (forall (canonical : gmap string Json) (existing : Json),
      exists first,
        continue_merge canonical existing = Ok first
        /\ continue_merge canonical (document first) = Ok first)
  /\ (forall lib : Serde,
      (forall j : Json, @serde_json_to_value lib (yaml_of_json j) = Ok j) ->
      forall (wrapper_key : option string) (canonical : gmap string Json)
             (existing : Yaml) (first : MergeResult Yaml),
        @yaml_merge lib wrapper_key canonical existing = Ok first ->
        @yaml_merge lib wrapper_key canonical (document first) = Ok first)
  /\ (forall j : Json, to_value (yaml_of_json j) = Ok j).
Proof.
  split; [|split; [|exact to_value_yaml_of_json]].
  - intros canonical existing. unfold continue_merge.
    destruct (continue_locate_total existing) as [working ->].
    eexists. split; [done|]. cbn [document].
    rewrite continue_locate_write_back, merge_entries_twice.
    unfold continue_write_back. simpl. by rewrite insert_insert_eq.
  - intros lib Hback wrapper_key canonical existing first Hfirst.
    unfold yaml_merge in *.
    destruct (yaml_locate wrapper_key existing) as [working|] eqn:Hworking; [|done].
    injection Hfirst as <-. cbn [document].
    destruct wrapper_key as [key|].
    + rewrite yaml_locate_write_back by (intros name value _; apply Hback).
      by rewrite merge_entries_twice, yaml_write_back_twice.
    + unfold yaml_locate in *. simpl in *. injection Hworking as <-. done.
Qed.

Lemma merge_idempotent_witness :
  (forall j : Json, @serde_json_to_value table_serde (yaml_of_json j) = Ok j)
  /\ exists first,
      @yaml_merge table_serde (Some "mcpServers") {[ "b" := JString "server b" ]}
        yaml_numeric_keys_doc = Ok first
      /\ @yaml_merge table_serde (Some "mcpServers") {[ "b" := JString "server b" ]}
           (document first) = Ok first.
Proof.
  assert (forall j : Json, @serde_json_to_value table_serde (yaml_of_json j) = Ok j)
    as Hback by exact (proj2 (proj2 merge_idempotent)).
  split; [exact Hback|].
  destruct (@yaml_merge table_serde (Some "mcpServers") {[ "b" := JString "server b" ]}
              yaml_numeric_keys_doc) as [first|e] eqn:Hfirst.
  - exists first. split; [reflexivity|].
    exact (proj1 (proj2 merge_idempotent) table_serde Hback _ _ _ _ Hfirst).
  - vm_compute in Hfirst. discriminate Hfirst.
Defined.

(** The wrapper-key example of the specification (section 8) on the
    Continue adapter, as a check of the steps taken from it; and what the
    YAML pipeline does to a document with two numeric keys. *)
Example wrapper_key_isolation :
  document <$> RsResult.ok
    (continue_merge {[ "b" := JString "server b" ]}
       (JObject {[ "unrelated" := JNumber 1;
                   "mcpServers" := JObject {[ "a" := JString "server a" ]} ]}))
  = Some (JObject {[ "unrelated" := JNumber 1;
                     "mcpServers" := JObject {[ "a" := JString "server a";
                                                "b" := JString "server b" ]} ]}).
Proof. vm_compute. reflexivity. Qed.

Example yaml_merge_collapses_numeric_keys :
  document <$> RsResult.ok
    (@yaml_merge table_serde (Some "mcpServers") {[ "b" := JString "server b" ]}
       yaml_numeric_keys_doc)
  = Some (YMapping
            [(YString "mcpServers",
              YMapping (subtree_entries
                          {[ "" := JString "second"; "named" := JString "third";
                             "b" := JString "server b" ]}))]).
Proof. vm_compute. reflexivity. Qed.

End MergerFacts.


(** * Further properties of the scripts and of the code they carry *)

(** ** More on [str.replace] *)

Section SearchFacts.
Import Python PythonSearch.
Context {A : Type} `{EqDecision A}.
Implicit Types old new p s t : list A.

Lemma contains_spec t p : contains t p = true <-> occurs p t.
Proof.
  induction t as [|c t IH]; simpl.
  - rewrite orb_false_r, begins_with_spec. split.
    + intros [r Hr]. exists [], r. done.
    + intros [l [r Hocc]]. destruct l; [by exists r|done].
  - rewrite orb_true_iff, begins_with_spec, IH. split.
    + intros [[r ->]|[l [r ->]]]; [by exists [], r | by exists (c :: l), r].
    + intros [[|x l] [r Hocc]]; [left; by exists r|].
      right. injection Hocc as _ ->. by exists l, r.
Qed.

Lemma contains_false t p : contains t p = false -> ~ occurs p t.
Proof. intros Hno Hocc%contains_spec. congruence. Qed.

Lemma occurs_trans p q t : occurs p q -> occurs q t -> occurs p t.
Proof.
  intros [l1 [r1 ->]] [l2 [r2 ->]]. exists (l2 ++ l1), (r1 ++ r2).
  by rewrite <- !app_assoc.
Qed.

Lemma occurs_app_r p l t : occurs p t -> occurs p (l ++ t).
Proof. intros [l' [r ->]]. exists (l ++ l'), r. by rewrite <- app_assoc. Qed.

Lemma begins_with_shorter s a b :
  begins_with (a ++ b) s = true -> length s <= length a -> begins_with a s = true.
Proof.
  revert a; induction s as [|x s IH]; intros a Hbegin Hlen; [done|].
  destruct a as [|c a]; [simpl in Hlen; lia|].
  apply begins_with_cons_inv in Hbegin as [-> Hbegin].
  simpl. rewrite bool_decide_true by done. apply IH; [done | simpl in Hlen; lia].
Qed.

(** The first occurrence: when no occurrence of [old] begins inside [pre],
    the text [pre ++ old ++ rest] is rewritten to [pre ++ new ++ ..] and
    the scan goes on in [rest]. *)
Lemma replace_from_first old new pre rest :
  old <> [] ->
  ~ occurs old (pre ++ removelast old) ->
  replace_from old new 0 (pre ++ old ++ rest)
  = pre ++ new ++ replace_from old new 0 rest.
Proof.
  intros Hne. induction pre as [|c pre IH]; intros Hno.
  - cbn [app]. by apply replace_hit.
  - cbn [app]. rewrite replace_from_miss.
    + f_equal. apply IH. intros [l [r Hocc]]. apply Hno.
      exists (c :: l), r. cbn [app]. by rewrite Hocc.
    + apply not_true_is_false. intros Hbegin. apply Hno.
      destruct old as [|a old'] using rev_ind; [done|].
      rewrite removelast_last.
      change (c :: pre ++ (old' ++ [a]) ++ rest)
        with ((c :: pre) ++ (old' ++ [a]) ++ rest) in Hbegin.
      rewrite <- (app_assoc old' [a] rest), (app_assoc (c :: pre) old') in Hbegin.
      apply begins_with_shorter in Hbegin.
      * apply begins_with_spec in Hbegin as [r Hr]. exists [], r. by rewrite Hr.
      * rewrite !length_app. simpl. lia.
Qed.

(** The output is no longer than the input when [new] is no longer than
    [old]. *)
Lemma replace_from_length old new : forall s skip,
  length new <= length old ->
  length (replace_from old new skip s) + min skip (length s) <= length s.
Proof.
  induction s as [|c s IH]; intros skip Hlen; simpl; [lia|].
  destruct skip as [|k].
  - destruct (begins_with (c :: s) old) eqn:Hm.
    + specialize (IH (length old - 1) Hlen).
      apply begins_with_length in Hm. simpl in Hm.
      rewrite length_app. lia.
    + specialize (IH 0 Hlen). simpl. lia.
  - specialize (IH k Hlen). lia.
Qed.

Lemma replace_length s old new :
  old <> [] -> length new <= length old -> length (replace s old new) <= length s.
Proof.
  intros Hne Hlen. rewrite replace_nonempty by done.
  pose proof (replace_from_length old new s 0 Hlen). lia.
Qed.

End SearchFacts.

(** ** [fix_clippy.py], beyond idempotence *)

Section FixClippyMore.
Import Python PythonSearch fix_clippy.

Lemma run_fs_rs (disk : Disk) (stored_fs : str) :
  disk !! "src/fs.rs" = Some stored_fs ->
  (run disk).1 !! "src/fs.rs" = Some (patch_fs (read_text stored_fs)).
Proof.
  intros Hfs. unfold run. rewrite Hfs. cbn zeta. rewrite lookup_insert_ne by done.
  destruct (disk !! "src/mcp.rs"); cbn [fst].
  - by rewrite lookup_insert_ne, lookup_insert_eq by done.
  - by rewrite lookup_insert_eq.
Qed.

(** X10.  Missing files: without [src/fs.rs] the run ends with
    [FileNotFoundError] and nothing is written; with [src/fs.rs] but
    without [src/mcp.rs] it ends with [FileNotFoundError] after
    [src/fs.rs] has been rewritten; a run that completes has found both
    files. *)
Theorem fix_clippy_run_missing_files (disk : Disk) :
  (disk !! "src/fs.rs" = None ->
     run disk = (disk, FileNotFoundError "src/fs.rs"))
  /\ (forall stored_fs,
       disk !! "src/fs.rs" = Some stored_fs ->
       disk !! "src/mcp.rs" = None ->
       run disk = (<["src/fs.rs" := patch_fs (read_text stored_fs)]> disk,
                   FileNotFoundError "src/mcp.rs"))
  /\ ((run disk).2 = Completed ->
      is_Some (disk !! "src/fs.rs") /\ is_Some (disk !! "src/mcp.rs")).
Proof.
  split; [|split].
  - intros Hfs. unfold run. by rewrite Hfs.
  - intros stored_fs Hfs Hmcp. unfold run. rewrite Hfs. cbn zeta.
    by rewrite lookup_insert_ne, Hmcp.
  - unfold run. destruct (disk !! "src/fs.rs") as [stored_fs|]; cbn zeta; [|done].
    rewrite lookup_insert_ne by done.
    destruct (disk !! "src/mcp.rs") as [stored_mcp|]; cbn [snd]; done.
Qed.

Lemma fix_clippy_run_missing_files_witness :
  ({[ "src/fs.rs" := of_string "fn main() {}" ]} : Disk) !! "src/fs.rs"
    = Some (of_string "fn main() {}")
  /\ ({[ "src/fs.rs" := of_string "fn main() {}" ]} : Disk) !! "src/mcp.rs" = None
  /\ run {[ "src/fs.rs" := of_string "fn main() {}" ]}
     = (<["src/fs.rs" := patch_fs (read_text (of_string "fn main() {}"))]>
          {[ "src/fs.rs" := of_string "fn main() {}" ]},
        FileNotFoundError "src/mcp.rs").
Proof.
  assert (({[ "src/fs.rs" := of_string "fn main() {}" ]} : Disk) !! "src/fs.rs"
          = Some (of_string "fn main() {}")) as Hfs by reflexivity.
  assert (({[ "src/fs.rs" := of_string "fn main() {}" ]} : Disk) !! "src/mcp.rs" = None)
    as Hmcp by reflexivity.
  split; [exact Hfs|]. split; [exact Hmcp|].
  exact (proj1 (proj2 (fix_clippy_run_missing_files _)) _ Hfs Hmcp).
Defined.

Lemma patch_fs_clears (s : str) : ~ occurs old_fs (patch_fs s).
Proof. apply replace_clears, fs_pair_clear. Qed.

Lemma patch_mcp_clears (s : str) :
  ~ occurs old_mcp1 (patch_mcp s) /\ ~ occurs old_mcp2 (patch_mcp s).
Proof.
  unfold patch_mcp. split.
  - apply replace_keeps_absent.
    + by eapply cannot_create_nonempty, mcp2_pair_clear.
    + apply mcp1_not_created_by_mcp2.
    + apply replace_clears, mcp1_pair_clear.
  - apply replace_clears, mcp2_pair_clear.
Qed.

(** X11.  After the patch no old snippet is left: the patched text of
    [fs.rs] contains no [old_fs], the patched text of [mcp.rs] contains
    neither [old_mcp1] nor [old_mcp2]; and so for the files a run leaves
    on disk. *)
Theorem fix_clippy_removes_old_snippets :
  (forall s : str, ~ occurs old_fs (patch_fs s))
  /\ (forall s : str, ~ occurs old_mcp1 (patch_mcp s) /\ ~ occurs old_mcp2 (patch_mcp s))
  /\ (forall (disk : Disk) (text : str),
       (run disk).1 !! "src/fs.rs" = Some text -> ~ occurs old_fs text)
  /\ (forall (disk : Disk) (text : str),
       (run disk).2 = Completed ->
       (run disk).1 !! "src/mcp.rs" = Some text ->
       ~ occurs old_mcp1 text /\ ~ occurs old_mcp2 text).
Proof.
  split; [exact patch_fs_clears|]. split; [exact patch_mcp_clears|]. split.
  - intros disk text Htext.
    destruct (disk !! "src/fs.rs") as [stored_fs|] eqn:Hstored.
    + rewrite (run_fs_rs _ _ Hstored) in Htext. injection Htext as <-.
      apply patch_fs_clears.
    + unfold run in Htext. rewrite Hstored in Htext. cbn [fst] in Htext. congruence.
  - intros disk text Hdone Htext. unfold run in Hdone, Htext.
    destruct (disk !! "src/fs.rs") as [stored_fs|]; [|done]. cbn zeta in *.
    rewrite lookup_insert_ne in Hdone, Htext by done.
    destruct (disk !! "src/mcp.rs") as [stored_mcp|]; [|done].
    cbn [fst] in Htext. rewrite lookup_insert_eq in Htext.
    injection Htext as <-. apply patch_mcp_clears.
Qed.

Lemma fix_clippy_removes_old_snippets_witness :
  (run {[ "src/fs.rs" := old_fs ]}).1 !! "src/fs.rs" = Some new_fs
  /\ ~ occurs old_fs new_fs.
Proof.
  assert ((run {[ "src/fs.rs" := old_fs ]}).1 !! "src/fs.rs" = Some new_fs) as Hrun
    by (vm_compute; reflexivity).
  split; [exact Hrun|].
  exact (proj1 (proj2 (proj2 fix_clippy_removes_old_snippets)) _ _ Hrun).
Defined.

(** X12.  A text in which no old snippet occurs is left as it is, and a
    disk whose two files hold such texts, without carriage returns, is
    left as it is by a run. *)
Theorem fix_clippy_clean_text_unchanged :
  (forall s : str, ~ occurs old_fs s -> patch_fs s = s)
  /\ (forall s : str, ~ occurs old_mcp1 s -> ~ occurs old_mcp2 s -> patch_mcp s = s)
  /\ (forall (disk : Disk) (fs_text mcp_text : str),
       disk !! "src/fs.rs" = Some fs_text ->
       disk !! "src/mcp.rs" = Some mcp_text ->
       Forall (fun c => c <> CR) fs_text ->
       Forall (fun c => c <> CR) mcp_text ->
       ~ occurs old_fs fs_text ->
       ~ occurs old_mcp1 mcp_text ->
       ~ occurs old_mcp2 mcp_text ->
       run disk = (disk, Completed)).
Proof.
  assert (forall s : str, ~ occurs old_fs s -> patch_fs s = s) as Hfs.
  { intros s Hno. apply replace_absent; [|done].
    by eapply cannot_create_nonempty, fs_pair_clear. }
  assert (forall s : str,
             ~ occurs old_mcp1 s -> ~ occurs old_mcp2 s -> patch_mcp s = s) as Hmcp.
  { intros s Hno1 Hno2. unfold patch_mcp.
    rewrite (replace_absent s old_mcp1) by
      (done || by eapply cannot_create_nonempty, mcp1_pair_clear).
    apply replace_absent; [|done].
    by eapply cannot_create_nonempty, mcp2_pair_clear. }
  split; [exact Hfs|]. split; [exact Hmcp|].
  intros disk fs_text mcp_text Hfs_file Hmcp_file Hcr_fs Hcr_mcp Hno_fs Hno1 Hno2.
  unfold run. rewrite Hfs_file. cbn zeta.
  rewrite (read_text_without_cr _ Hcr_fs), (Hfs _ Hno_fs). unfold write_text.
  rewrite (insert_id disk "src/fs.rs") by done. rewrite Hmcp_file.
  rewrite (read_text_without_cr _ Hcr_mcp), (Hmcp _ Hno1 Hno2).
  by rewrite (insert_id disk "src/mcp.rs").
Qed.

End FixClippyMore.

Section FixClippyEffect.
Import Python PythonSearch fix_clippy.

Lemma fix_clippy_clean_text_unchanged_witness :
  ~ occurs old_fs (of_string "fn main() {}")
  /\ patch_fs (of_string "fn main() {}") = of_string "fn main() {}".
Proof.
  assert (~ occurs old_fs (of_string "fn main() {}")) as Hclean
    by (apply contains_false; vm_compute; reflexivity).
  split; [exact Hclean|].
  exact (proj1 fix_clippy_clean_text_unchanged _ Hclean).
Defined.

(** X13.  What the patch does to one occurrence: in a text
    [pre ++ old_fs ++ post] where no occurrence of [old_fs] begins inside
    [pre] and none is in [post], exactly that occurrence becomes [new_fs];
    likewise for [old_mcp1] in [mcp.rs], when the result holds no
    [old_mcp2]. *)
Theorem fix_clippy_rewrites_one_occurrence (pre post : str) :
  (~ occurs old_fs (pre ++ removelast old_fs) ->
   ~ occurs old_fs post ->
   patch_fs (pre ++ old_fs ++ post) = pre ++ new_fs ++ post)
  /\ (~ occurs old_mcp1 (pre ++ removelast old_mcp1) ->
      ~ occurs old_mcp1 post ->
      ~ occurs old_mcp2 (pre ++ new_mcp1 ++ post) ->
      patch_mcp (pre ++ old_mcp1 ++ post) = pre ++ new_mcp1 ++ post).
Proof.
  split.
  - intros Hpre Hpost. unfold patch_fs.
    assert (old_fs <> []) as Hne by by eapply cannot_create_nonempty, fs_pair_clear.
    rewrite replace_nonempty, replace_from_first by done.
    by rewrite replace_from_absent.
  - intros Hpre Hpost Hno2. unfold patch_mcp.
    assert (old_mcp1 <> []) as Hne1 by by eapply cannot_create_nonempty, mcp1_pair_clear.
    assert (old_mcp2 <> []) as Hne2 by by eapply cannot_create_nonempty, mcp2_pair_clear.
    rewrite (replace_nonempty _ old_mcp1), replace_from_first by done.
    rewrite replace_from_absent by done. by apply replace_absent.
Qed.

Lemma fix_clippy_rewrites_one_occurrence_witness :
  ~ occurs old_fs (of_string "fn copy() {" ++ removelast old_fs)
  /\ ~ occurs old_fs (of_string "}")
  /\ patch_fs (of_string "fn copy() {" ++ old_fs ++ of_string "}")
     = of_string "fn copy() {" ++ new_fs ++ of_string "}".
Proof.
  assert (~ occurs old_fs (of_string "fn copy() {" ++ removelast old_fs)) as Hpre
    by (apply contains_false; vm_compute; reflexivity).
  assert (~ occurs old_fs (of_string "}")) as Hpost
    by (apply contains_false; vm_compute; reflexivity).
  split; [exact Hpre|]. split; [exact Hpost|].
  exact (proj1 (fix_clippy_rewrites_one_occurrence _ _) Hpre Hpost).
Defined.

End FixClippyEffect.

(** ** [fix_clippy_v2.py] *)

Section FixClippyV2.
Import Python PythonSearch.

Lemma v2_yaml_pair_clear :
  cannot_create fix_clippy_v2.old_yaml_parse fix_clippy_v2.new_yaml_parse = true.
Proof. vm_compute. reflexivity. Qed.

Lemma v2_continue_pair_clear :
  cannot_create fix_clippy_v2.old_continue_parse fix_clippy_v2.new_continue_parse = true.
Proof. vm_compute. reflexivity. Qed.

Lemma v2_yaml_not_created_by_continue :
  cannot_create fix_clippy_v2.old_yaml_parse fix_clippy_v2.new_continue_parse = true.
Proof. vm_compute. reflexivity. Qed.

Lemma v2_new_snippets_without_cr :
  Forall (fun c => c <> CR) fix_clippy_v2.new_yaml_parse
  /\ Forall (fun c => c <> CR) fix_clippy_v2.new_continue_parse.
Proof.
  split;
    match goal with |- ?P => apply (@bool_decide_unpack P _) end;
    vm_compute; exact I.
Qed.

(** The functions [fix_clippy_v2.py] looks for contain the conditionals
    [fix_clippy.py] looks for. *)
Lemma v2_old_snippets_contain_v1 :
  occurs fix_clippy.old_mcp1 fix_clippy_v2.old_yaml_parse
  /\ occurs fix_clippy.old_mcp2 fix_clippy_v2.old_continue_parse.
Proof. split; apply contains_spec; vm_compute; reflexivity. Qed.

Lemma v2_patch_mcp_idempotent s :
  fix_clippy_v2.patch_mcp (fix_clippy_v2.patch_mcp s) = fix_clippy_v2.patch_mcp s.
Proof.
  unfold fix_clippy_v2.patch_mcp.
  set (t := replace (replace s _ _) _ _).
  assert (replace t fix_clippy_v2.old_yaml_parse fix_clippy_v2.new_yaml_parse = t) as ->.
  { apply replace_absent; [by eapply cannot_create_nonempty, v2_yaml_pair_clear|].
    apply replace_keeps_absent.
    - by eapply cannot_create_nonempty, v2_continue_pair_clear.
    - apply v2_yaml_not_created_by_continue.
    - apply replace_clears, v2_yaml_pair_clear. }
  apply replace_idempotent, v2_continue_pair_clear.
Qed.

Lemma v2_patch_mcp_without_cr s :
  Forall (fun c => c <> CR) s -> Forall (fun c => c <> CR) (fix_clippy_v2.patch_mcp s).
Proof.
  intros Hs. unfold fix_clippy_v2.patch_mcp. apply replace_without_cr.
  - by eapply cannot_create_nonempty, v2_continue_pair_clear.
  - apply v2_new_snippets_without_cr.
  - apply replace_without_cr; [|apply v2_new_snippets_without_cr|done].
    by eapply cannot_create_nonempty, v2_yaml_pair_clear.
Qed.

(** X14.  [fix_clippy_v2.py] is idempotent: patching a text twice gives
    what patching once gives, and a second run leaves the disk and the
    way the run ends as the first run left them. *)
Theorem fix_clippy_v2_idempotent :
  (forall s : str,
      fix_clippy_v2.patch_mcp (fix_clippy_v2.patch_mcp s) = fix_clippy_v2.patch_mcp s)
  /\ (forall disk : Disk,
      fix_clippy_v2.run (fix_clippy_v2.run disk).1 = fix_clippy_v2.run disk).
Proof.
  split; [exact v2_patch_mcp_idempotent|].
  intros disk. unfold fix_clippy_v2.run at 2 3.
  destruct (disk !! "src/mcp.rs") as [stored_mcp|] eqn:Hmcp; cbn [fst].
  - unfold fix_clippy_v2.run. rewrite lookup_insert_eq. cbn zeta. unfold write_text.
    rewrite read_text_without_cr
      by (apply v2_patch_mcp_without_cr, read_text_no_cr).
    by rewrite v2_patch_mcp_idempotent, insert_insert_eq.
  - unfold fix_clippy_v2.run. by rewrite Hmcp.
Qed.

(** X15.  [fix_clippy_v2.py] finds nothing to do after [fix_clippy.py]:
    a text patched by the first script is left as it is by the second,
    and after a completed run of the first script a run of the second
    completes without changing the disk. *)
Theorem fix_clippy_v2_after_fix_clippy :
  (forall s : str,
      fix_clippy_v2.patch_mcp (fix_clippy.patch_mcp s) = fix_clippy.patch_mcp s)
  /\ (forall disk : Disk,
      (fix_clippy.run disk).2 = Completed ->
      fix_clippy_v2.run (fix_clippy.run disk).1 = ((fix_clippy.run disk).1, Completed)).
Proof.
  assert (forall s : str,
             fix_clippy_v2.patch_mcp (fix_clippy.patch_mcp s) = fix_clippy.patch_mcp s)
    as Hpatch.
  { intros s. destruct (patch_mcp_clears s) as [Hno1 Hno2].
    destruct v2_old_snippets_contain_v1 as [Hin1 Hin2].
    unfold fix_clippy_v2.patch_mcp.
    rewrite (replace_absent _ fix_clippy_v2.old_yaml_parse).
    - apply replace_absent;
        [by eapply cannot_create_nonempty, v2_continue_pair_clear|].
      intros Hocc. apply Hno2. by eapply occurs_trans.
    - by eapply cannot_create_nonempty, v2_yaml_pair_clear.
    - intros Hocc. apply Hno1. by eapply occurs_trans. }
  split; [exact Hpatch|].
  intros disk Hdone. unfold fix_clippy.run in *.
  destruct (disk !! "src/fs.rs") as [stored_fs|]; [|done]. cbn zeta in *.
  rewrite lookup_insert_ne in * by done.
  destruct (disk !! "src/mcp.rs") as [stored_mcp|]; [|done]. cbn [fst].
  unfold fix_clippy_v2.run. rewrite lookup_insert_eq. cbn zeta. unfold write_text.
  rewrite read_text_without_cr.
  - by rewrite Hpatch, insert_insert_eq.
  - unfold fix_clippy.patch_mcp. apply replace_without_cr.
    + by eapply cannot_create_nonempty, mcp2_pair_clear.
    + apply new_snippets_without_cr.
    + apply replace_without_cr; [|apply new_snippets_without_cr|apply read_text_no_cr].
      by eapply cannot_create_nonempty, mcp1_pair_clear.
Qed.

End FixClippyV2.

Section FixClippyV2Examples.
Import Python PythonSearch.

Lemma fix_clippy_v2_after_fix_clippy_witness :
  (fix_clippy.run {[ "src/fs.rs" := fix_clippy.old_fs;
                     "src/mcp.rs" := fix_clippy_v2.old_continue_parse ]}).2 = Completed
  /\ fix_clippy_v2.run
       (fix_clippy.run {[ "src/fs.rs" := fix_clippy.old_fs;
                          "src/mcp.rs" := fix_clippy_v2.old_continue_parse ]}).1
     = ((fix_clippy.run {[ "src/fs.rs" := fix_clippy.old_fs;
                           "src/mcp.rs" := fix_clippy_v2.old_continue_parse ]}).1,
        Completed).
Proof.
  assert ((fix_clippy.run {[ "src/fs.rs" := fix_clippy.old_fs;
                             "src/mcp.rs" := fix_clippy_v2.old_continue_parse ]}).2
          = Completed) as Hdone by (vm_compute; reflexivity).
  split; [exact Hdone|].
  exact (proj2 fix_clippy_v2_after_fix_clippy _ Hdone).
Defined.

End FixClippyV2Examples.

(** ** [fix_clippy_v3.py] *)

Section FixClippyV3.
Import Python PythonSearch.

Lemma v3_fs_pair_clear :
  cannot_create fix_clippy_v3.old_fs fix_clippy_v3.new_fs = true.
Proof. vm_compute. reflexivity. Qed.

Lemma v3_new_fs_without_cr : Forall (fun c => c <> CR) fix_clippy_v3.new_fs.
Proof.
  match goal with |- ?P => apply (@bool_decide_unpack P _) end.
  vm_compute. exact I.
Qed.

Lemma v3_patch_fs_reread stored :
  fix_clippy_v3.patch_fs
    (read_text (write_text (fix_clippy_v3.patch_fs (read_text stored))))
  = fix_clippy_v3.patch_fs (read_text stored).
Proof.
  unfold write_text. rewrite read_text_without_cr.
  - apply replace_idempotent, v3_fs_pair_clear.
  - apply replace_without_cr.
    + by eapply cannot_create_nonempty, v3_fs_pair_clear.
    + apply v3_new_fs_without_cr.
    + apply read_text_no_cr.
Qed.

(** X17.  [fix_clippy_v3.py] is idempotent: patching a text twice gives
    what patching once gives, and a second run leaves the disk and the way
    the run ends as the first run left them. *)
Theorem fix_clippy_v3_idempotent :
  (forall s : str,
      fix_clippy_v3.patch_fs (fix_clippy_v3.patch_fs s) = fix_clippy_v3.patch_fs s)
  /\ (forall disk : Disk,
      fix_clippy_v3.run (fix_clippy_v3.run disk).1 = fix_clippy_v3.run disk).
Proof.
  split; [intros s; apply replace_idempotent, v3_fs_pair_clear|].
  intros disk. unfold fix_clippy_v3.run at 2 3.
  destruct (disk !! "src/fs.rs") as [stored_fs|] eqn:Hfs; cbn zeta.
  - rewrite !lookup_insert_ne by done.
    pose proof (v3_patch_fs_reread stored_fs) as Hre.
    destruct (disk !! "src/mcp.rs") as [stored_mcp|] eqn:Hmcp; cbn [fst];
      unfold fix_clippy_v3.run; rewrite lookup_insert_eq; cbn zeta;
      unfold write_text in *; rewrite Hre, insert_insert_eq;
      rewrite lookup_insert_ne by done; by rewrite Hmcp.
  - cbn [fst]. unfold fix_clippy_v3.run. by rewrite Hfs.
Qed.

(** X18.  None of the patches lengthens a text: every new snippet is
    shorter than the snippet it replaces. *)
Theorem patches_never_lengthen (s : str) :
  length (fix_clippy.patch_fs s) <= length s
  /\ length (fix_clippy.patch_mcp s) <= length s
  /\ length (fix_clippy_v2.patch_mcp s) <= length s
  /\ length (fix_clippy_v3.patch_fs s) <= length s.
Proof.
  assert (forall (old new t : str),
             cannot_create old new = true ->
             Nat.leb (length new) (length old) = true ->
             length (replace t old new) <= length t) as Hstep.
  { intros old new t Hc Hlen. apply replace_length.
    - by eapply cannot_create_nonempty.
    - by apply Nat.leb_le. }
  repeat split.
  - apply Hstep; [apply fs_pair_clear | vm_compute; reflexivity].
  - unfold fix_clippy.patch_mcp.
    etrans; [apply Hstep; [apply mcp2_pair_clear | vm_compute; reflexivity]|].
    apply Hstep; [apply mcp1_pair_clear | vm_compute; reflexivity].
  - unfold fix_clippy_v2.patch_mcp.
    etrans; [apply Hstep; [apply v2_continue_pair_clear | vm_compute; reflexivity]|].
    apply Hstep; [apply v2_yaml_pair_clear | vm_compute; reflexivity].
  - apply Hstep; [apply v3_fs_pair_clear | vm_compute; reflexivity].
Qed.

End FixClippyV3.

(** ** [scripts/bench_setup.py] *)

Section BenchSetup.
Import Python PythonSearch bench_setup.

Lemma of_string_inj (a b : string) : of_string a = of_string b -> a = b.
Proof.
  unfold of_string. intros Heq.
  assert (list_ascii_of_string a = list_ascii_of_string b) as Hlist.
  { revert Heq. generalize (list_ascii_of_string a) (list_ascii_of_string b).
    induction l as [|x l IH]; intros [|y l']; simpl; try done.
    intros [= Hxy Hrest]. f_equal; [|by apply IH].
    rewrite <- (ascii_N_embedding x), <- (ascii_N_embedding y). by rewrite Hxy. }
  rewrite <- (string_of_list_ascii_of_string a), <- (string_of_list_ascii_of_string b).
  by rewrite Hlist.
Qed.

Lemma str_of_int_inj (i j : nat) : str_of_int i = str_of_int j -> i = j.
Proof. intros Heq%of_string_inj. by apply (inj pretty). Qed.

Lemma foldl_append {B : Type} (f : B -> str) (l : list B) : forall start : str,
  foldl (fun text i => text ++ f i) start l = start ++ concat (f <$> l).
Proof.
  induction l as [|x l IH]; intros start; simpl.
  - by rewrite app_nil_r.
  - by rewrite IH, <- app_assoc.
Qed.

Lemma config_after_blocks (n : nat) :
  config_after n = config_header ++ concat (agent_block <$> range n).
Proof. apply foldl_append. Qed.

Lemma occurs_concat (x : str) (items : list str) : x ∈ items -> occurs x (concat items).
Proof.
  intros (l1 & l2 & ->)%list_elem_of_split.
  exists (concat l1), (concat l2). by rewrite concat_app.
Qed.

Lemma occurs_join (sep x : str) (items : list str) :
  x ∈ items -> occurs x (join sep items).
Proof.
  destruct items as [|first rest]; [by intros ?%elem_of_nil|].
  intros [->|Hrest]%elem_of_cons; simpl.
  - by exists [], (flat_map (fun item => sep ++ item) rest).
  - apply occurs_app_r. induction rest as [|y rest IH]; [by apply elem_of_nil in Hrest|].
    apply elem_of_cons in Hrest as [->|Hrest]; simpl.
    + exists sep, (flat_map (fun item => sep ++ item) rest). by rewrite <- app_assoc.
    + rewrite <- app_assoc. do 2 apply occurs_app_r. by apply IH.
Qed.

Lemma range_elem (n i : nat) : i < n -> i ∈ range n.
Proof. intros Hi. unfold range. apply elem_of_seq. lia. Qed.

(** X19.  The generated texts hold what the loops put there: after [n]
    rounds the configuration is the header followed by the blocks of the
    agents [0 .. n-1] in order, so the written configuration has the block
    of every agent below 100, and [AGENTS.md] has the section of every
    agent below 1000. *)
Theorem bench_setup_contents :
  (forall n : nat,
      config_after (S n) = config_after n ++ agent_block n)
  /\ (forall n i : nat, i < n -> occurs (agent_block i) (config_after n))
  /\ begins_with config config_header = true
  /\ (forall i : nat, i < 100 -> occurs (agent_block i) config)
  /\ (forall i : nat, i < 1000 -> occurs (agent_section i) agents_md_content).
Proof.
  assert (forall n i : nat, i < n -> occurs (agent_block i) (config_after n)) as Hblocks.
  { intros n i Hi. rewrite config_after_blocks. apply occurs_app_r, occurs_concat.
    apply list_elem_of_fmap. exists i. split; [done | by apply range_elem]. }
  split; [|split; [exact Hblocks|split; [|split]]].
  - intros n. unfold config_after, range. by rewrite seq_S, foldl_app.
  - unfold config. rewrite config_after_blocks. apply begins_with_app.
  - intros i Hi. by apply Hblocks.
  - intros i Hi. unfold agents_md_content. apply occurs_app_r, occurs_join.
    apply list_elem_of_fmap. exists i. split; [done | by apply range_elem].
Qed.

Lemma bench_setup_contents_witness :
  7 < 100 /\ occurs (agent_block 7) config.
Proof.
  assert (7 < 100) as Hi by lia.
  split; [exact Hi|].
  exact (proj1 (proj2 (proj2 (proj2 bench_setup_contents))) 7 Hi).
Defined.

(** X20.  No two agents get the same block of configuration, and no two
    the same section of [AGENTS.md]. *)
Theorem bench_setup_agents_distinct (i j : nat) :
  (agent_block i = agent_block j -> i = j)
  /\ (agent_section i = agent_section j -> i = j).
Proof.
  split.
  - intros Heq. apply str_of_int_inj.
    assert (length (str_of_int i) = length (str_of_int j)) as Hlen.
    { apply (f_equal length) in Heq. unfold agent_block in Heq.
      rewrite !length_app in Heq. lia. }
    unfold agent_block in Heq. apply app_inv_head in Heq.
    by apply app_inj_1 in Heq as [Heq _].
  - intros Heq. apply str_of_int_inj.
    assert (length (str_of_int i) = length (str_of_int j)) as Hlen.
    { apply (f_equal length) in Heq. unfold agent_section in Heq.
      rewrite !length_app in Heq. lia. }
    unfold agent_section in Heq. apply app_inv_head in Heq.
    by apply app_inj_1 in Heq as [Heq _].
Qed.

Lemma bench_setup_agents_distinct_witness :
  agent_block 3 = agent_block (1 + 2) /\ 3 = 1 + 2.
Proof.
  assert (agent_block 3 = agent_block (1 + 2)) as Heq by reflexivity.
  split; [exact Heq|].
  exact (proj1 (bench_setup_agents_distinct 3 (1 + 2)) Heq).
Defined.

End BenchSetup.

Set Warnings "-clear-no-such-hyp".

Section BenchSetupRun.
Import Python bench_setup.

Lemma makedirs_exist_ok_some path tree tree' :
  makedirs_exist_ok path tree = Some tree' ->
  dirs tree' = {[ path ]} ∪ dirs tree /\ files tree' = files tree.
Proof.
  unfold makedirs_exist_ok. repeat case_bool_decide; intros [= <-]; simpl;
    (split; [set_solver | done]).
Qed.

Lemma makedirs_exist_ok_again path tree tree' :
  makedirs_exist_ok path tree = Some tree' -> makedirs_exist_ok path tree' = Some tree'.
Proof.
  intros Hmk. destruct (makedirs_exist_ok_some _ _ _ Hmk) as [Hdirs _].
  unfold makedirs_exist_ok at 1. rewrite bool_decide_true; [done|].
  rewrite Hdirs. apply elem_of_union_l, elem_of_singleton. done.
Qed.

Lemma makedirs_exist_ok_none path tree :
  makedirs_exist_ok path tree = None <->
  (path ∉ dirs tree) /\ is_Some (files tree !! path).
Proof.
  unfold makedirs_exist_ok. repeat case_bool_decide; split; try done.
  - intros [? _]. done.
  - intros [_ ?]. done.
Qed.

Lemma write_file_some path text tree tree' :
  write_file path text tree = Some tree' ->
  (path ∉ dirs tree) /\ dirs tree' = dirs tree
  /\ files tree' = <[path := text]> (files tree).
Proof. unfold write_file. case_bool_decide; intros [= <-]; done. Qed.

Lemma write_file_none path text tree :
  write_file path text tree = None <-> path ∈ dirs tree.
Proof. unfold write_file. case_bool_decide; split; done. Qed.

Lemma write_file_dirs path text tree tree' :
  dirs tree' = dirs tree ->
  is_Some (write_file path text tree') <-> is_Some (write_file path text tree).
Proof.
  intros Hdirs. unfold write_file. rewrite Hdirs. by case_bool_decide.
Qed.

Lemma tree_eq (a b : Tree) : dirs a = dirs b -> files a = files b -> a = b.
Proof. destruct a, b. simpl. by intros -> ->. Qed.

Lemma agents_paths_distinct :
  ".agents/AGENTS.md" <> ".agents" /\ ".agents/agentsync.toml" <> ".agents"
  /\ ".agents/AGENTS.md" <> ".agents/agentsync.toml".
Proof. done. Qed.

(** What a run does, by the state it starts from. *)
Lemma run_cases (tree : Tree) :
  (makedirs_exist_ok ".agents" tree = None
     /\ run tree = (tree, FileExistsError ".agents"))
  \/ (exists t1,
        makedirs_exist_ok ".agents" tree = Some t1
        /\ (".agents/AGENTS.md" ∈ dirs tree)
        /\ run tree = (t1, IsADirectoryError ".agents/AGENTS.md"))
  \/ (exists t1,
        makedirs_exist_ok ".agents" tree = Some t1
        /\ (".agents/AGENTS.md" ∉ dirs tree)
        /\ (".agents/agentsync.toml" ∈ dirs tree)
        /\ run tree
           = (mkTree (dirs t1) (<[".agents/AGENTS.md" := agents_md_content]> (files tree)),
              IsADirectoryError ".agents/agentsync.toml"))
  \/ (exists t1,
        makedirs_exist_ok ".agents" tree = Some t1
        /\ (".agents/AGENTS.md" ∉ dirs tree)
        /\ (".agents/agentsync.toml" ∉ dirs tree)
        /\ run tree
           = (mkTree (dirs t1)
                (<[".agents/agentsync.toml" := config]>
                   (<[".agents/AGENTS.md" := agents_md_content]> (files tree))),
              Completed)).
Proof.
  unfold run. destruct (makedirs_exist_ok ".agents" tree) as [t1|] eqn:Hmk; [|by left].
  right. destruct (makedirs_exist_ok_some _ _ _ Hmk) as [Hdirs Hfiles].
  assert (forall path, path <> ".agents" -> path ∈ dirs t1 <-> path ∈ dirs tree) as Hin
    by (intros path Hpath; rewrite Hdirs; set_solver).
  unfold write_file. simpl.
  case_bool_decide as Hmd.
  { left. exists t1. apply Hin in Hmd; done. }
  right. rewrite Hin in Hmd by done.
  case_bool_decide as Htoml.
  { left. exists t1. apply Hin in Htoml; [|done]. by rewrite Hfiles. }
  right. rewrite Hin in Htoml by done. exists t1. by rewrite Hfiles.
Qed.

(** X21.  The script can be run again: a second run leaves the tree and
    the way the run ends exactly as the first run left them, whether the
    first run completed or raised. *)
Theorem bench_setup_run_idempotent (tree : Tree) :
  run (run tree).1 = run tree.
Proof.
  destruct agents_paths_distinct as (Hmd & Htoml & Hdiff).
  destruct (run_cases tree)
    as [[Hmk ->]|[(t1 & Hmk & Hmd_dir & ->)|[(t1 & Hmk & Hmd_dir & Htoml_dir & ->)
       |(t1 & Hmk & Hmd_dir & Htoml_dir & ->)]]]; cbn [fst].
  - unfold run. by rewrite Hmk.
  - destruct (makedirs_exist_ok_some _ _ _ Hmk) as [Hdirs Hfiles].
    unfold run. rewrite (makedirs_exist_ok_again _ _ _ Hmk).
    unfold write_file. rewrite bool_decide_true; [done|]. rewrite Hdirs. set_solver.
  - destruct (makedirs_exist_ok_some _ _ _ Hmk) as [Hdirs Hfiles].
    unfold run, makedirs_exist_ok, write_file. simpl.
    rewrite (bool_decide_true (".agents" ∈ dirs t1)) by (rewrite Hdirs; set_solver).
    simpl. rewrite (bool_decide_false (".agents/AGENTS.md" ∈ dirs t1))
      by (rewrite Hdirs; set_solver).
    simpl. rewrite (bool_decide_true (".agents/agentsync.toml" ∈ dirs t1))
      by (rewrite Hdirs; set_solver).
    by rewrite insert_insert_eq.
  - destruct (makedirs_exist_ok_some _ _ _ Hmk) as [Hdirs Hfiles].
    unfold run, makedirs_exist_ok, write_file. simpl.
    rewrite (bool_decide_true (".agents" ∈ dirs t1)) by (rewrite Hdirs; set_solver).
    simpl. rewrite (bool_decide_false (".agents/AGENTS.md" ∈ dirs t1))
      by (rewrite Hdirs; set_solver).
    simpl. rewrite (bool_decide_false (".agents/agentsync.toml" ∈ dirs t1))
      by (rewrite Hdirs; set_solver).
    f_equal. f_equal.
    rewrite (insert_insert_ne _ ".agents/AGENTS.md" ".agents/agentsync.toml") by done.
    by rewrite !insert_insert_eq.
Qed.

(** X22.  A run that completes leaves [.agents] as a directory, creating
    no other directory, and the two files with the generated texts,
    whatever they held before; neither target path was a directory.  A
    regular file at [.agents] ends the run with [FileExistsError] before
    anything is written.  A directory at [.agents/AGENTS.md] ends it with
    [IsADirectoryError] before anything is written.  A run that ends with
    [IsADirectoryError] at [.agents/agentsync.toml] has found a directory
    there and has written [.agents/AGENTS.md] already.  However the run
    ends, it removes no directory. *)
Theorem bench_setup_run_result (tree : Tree) :
  ((run tree).2 = Completed ->
      dirs (run tree).1 = {[ ".agents" ]} ∪ dirs tree
      /\ files (run tree).1 !! ".agents/AGENTS.md" = Some agents_md_content
      /\ files (run tree).1 !! ".agents/agentsync.toml" = Some config
      /\ (".agents/AGENTS.md" ∉ dirs tree)
      /\ (".agents/agentsync.toml" ∉ dirs tree))
  /\ ((".agents" ∉ dirs tree) -> is_Some (files tree !! ".agents") ->
      run tree = (tree, FileExistsError ".agents"))
  /\ ((".agents" ∈ dirs tree) -> (".agents/AGENTS.md" ∈ dirs tree) ->
      run tree = (tree, IsADirectoryError ".agents/AGENTS.md"))
  /\ ((run tree).2 = IsADirectoryError ".agents/agentsync.toml" ->
      (".agents/agentsync.toml" ∈ dirs tree)
      /\ files (run tree).1 !! ".agents/AGENTS.md" = Some agents_md_content)
  /\ dirs tree ⊆ dirs (run tree).1.
Proof.
  destruct agents_paths_distinct as (Hmd & Htoml & Hdiff).
  split; [|split; [|split; [|split]]].
  - destruct (run_cases tree)
      as [[Hmk ->]|[(t1 & Hmk & Hmd_dir & ->)|[(t1 & Hmk & Hmd_dir & Htoml_dir & ->)
         |(t1 & Hmk & Hmd_dir & Htoml_dir & ->)]]]; cbn [fst snd]; try done.
    destruct (makedirs_exist_ok_some _ _ _ Hmk) as [Hdirs Hfiles].
    intros _. simpl. split; [done|].
    split; [by rewrite lookup_insert_ne, lookup_insert_eq|].
    split; [by rewrite lookup_insert_eq | done].
  - intros Hnot_dir Hfile.
    assert (makedirs_exist_ok ".agents" tree = None) as Hnone
      by (by apply makedirs_exist_ok_none).
    unfold run. by rewrite Hnone.
  - intros Hdir Hmd_dir. unfold run, makedirs_exist_ok, write_file.
    by rewrite !bool_decide_true.
  - destruct (run_cases tree)
      as [[Hmk ->]|[(t1 & Hmk & Hmd_dir & ->)|[(t1 & Hmk & Hmd_dir & Htoml_dir & ->)
         |(t1 & Hmk & Hmd_dir & Htoml_dir & ->)]]]; cbn [fst snd]; try done.
    intros _. simpl. split; [done | by rewrite lookup_insert_eq].
  - destruct (run_cases tree)
      as [[Hmk ->]|[(t1 & Hmk & Hmd_dir & ->)|[(t1 & Hmk & Hmd_dir & Htoml_dir & ->)
         |(t1 & Hmk & Hmd_dir & Htoml_dir & ->)]]]; cbn [fst snd]; [done| | |];
      destruct (makedirs_exist_ok_some _ _ _ Hmk) as [Hdirs Hfiles];
      simpl; rewrite Hdirs; set_solver.
Qed.

Lemma bench_setup_run_result_witness :
  ((".agents" : string) ∉ (∅ : gset string))
  /\ is_Some (({[ ".agents" := of_string "notes" ]} : gmap string str) !! ".agents")
  /\ run (mkTree ∅ {[ ".agents" := of_string "notes" ]})
     = (mkTree ∅ {[ ".agents" := of_string "notes" ]}, FileExistsError ".agents").
Proof.
  assert ((".agents" : string) ∉ (∅ : gset string)) as Hnot_dir by set_solver.
  assert (is_Some (({[ ".agents" := of_string "notes" ]} : gmap string str)
                     !! ".agents")) as Hfile by (by eexists).
  split; [exact Hnot_dir|]. split; [exact Hfile|].
  exact (proj1 (proj2 (bench_setup_run_result
                         (mkTree ∅ {[ ".agents" := of_string "notes" ]})))
           Hnot_dir Hfile).
Defined.

End BenchSetupRun.

(** ** More on the self-nesting guard *)

Section GuardMore.
Import Paths Fs Copier.

(** X1.  The rewrites of the guard change nothing: the nested
    conditionals ([old_fs] of [fix_clippy.py]), the [and_then] chain
    ([new_fs] of [fix_clippy.py]) and the two [filter] forms of
    [fix_clippy_v3.py] give the same result for every file system,
    destination and source. *)
Theorem fs_guard_rewrites_agree (fs : Filesystem) (dst_abs src_canon : Path) :
  new_fs_guard fs dst_abs src_canon = old_fs_guard fs dst_abs src_canon
  /\ v3_old_fs_guard fs dst_abs src_canon = old_fs_guard fs dst_abs src_canon
  /\ v3_new_fs_guard fs dst_abs src_canon = old_fs_guard fs dst_abs src_canon.
Proof.
  destruct (guards_agree fs dst_abs src_canon) as (-> & -> & ->). done.
Qed.

Lemma absolute_snoc (names : list string) (name : string) :
  absolute (names ++ [name]) = absolute names ++ [Normal name].
Proof. unfold absolute. by rewrite fmap_app. Qed.

(** X2.  Nesting at any depth is rejected: when [base/names] is an
    existing chain of directories below the source [base], the copier
    refuses the destination [base/names/name] with the "into itself" error
    and leaves the file system as it was. *)
Theorem nested_destination_rejected
    (rest_of_copy : Filesystem -> Path -> Path -> Filesystem * Result unit)
    (fs : Filesystem) (base names : list string) (name : string) :
  dir_at (root fs) (base ++ names) ->
  let dst_abs := absolute (base ++ names ++ [name]) in
  copy_dir rest_of_copy fs (absolute base) dst_abs
  = (fs, Err (into_itself dst_abs (absolute base))).
Proof.
  intros Hdir dst_abs. unfold copy_dir.
  rewrite (new_fs_guard_rejects fs dst_abs (absolute base)
             (absolute (base ++ names)) (absolute (base ++ names))); [done | | |].
  - subst dst_abs. rewrite app_assoc, absolute_snoc. apply parent_snoc.
  - by apply canonicalize_absolute.
  - apply starts_with_spec. exists (Normal <$> names).
    unfold absolute. by rewrite fmap_app.
Qed.

Lemma nested_destination_rejected_witness :
  dir_at (root (mkFs [("S", Dir [("a", Dir [("b", Dir [])])])] [])) (["S"] ++ ["a"; "b"])
  /\ copy_dir mkdir_at_root (mkFs [("S", Dir [("a", Dir [("b", Dir [])])])] [])
       (absolute ["S"]) (absolute (["S"] ++ ["a"; "b"] ++ ["sub"]))
     = (mkFs [("S", Dir [("a", Dir [("b", Dir [])])])] [],
        Err (into_itself (absolute (["S"] ++ ["a"; "b"] ++ ["sub"])) (absolute ["S"]))).
Proof.
  assert (dir_at (root (mkFs [("S", Dir [("a", Dir [("b", Dir [])])])] []))
            (["S"] ++ ["a"; "b"])) as Hdir by (by eexists).
  split; [exact Hdir|].
  exact (nested_destination_rejected mkdir_at_root _ ["S"] ["a"; "b"] "sub" Hdir).
Defined.

(** X3.  A destination rejected for a source is rejected for every
    ancestor of that source; so a destination accepted for a directory is
    accepted for everything below it. *)
Theorem rejection_extends_to_ancestors
    (fs : Filesystem) (dst_abs base more : Path) (e : Error) :
  new_fs_guard fs dst_abs (base ++ more) = Err e ->
  new_fs_guard fs dst_abs base = Err (into_itself dst_abs base).
Proof.
  intros (_ & p & parent_canon & Hparent & Hcanon & Hinside)%new_fs_guard_err_iff.
  eapply new_fs_guard_rejects; [done | done |].
  apply starts_with_spec in Hinside as [rest ->].
  apply starts_with_spec. exists (more ++ rest). by rewrite <- app_assoc.
Qed.

Lemma rejection_extends_to_ancestors_witness :
  new_fs_guard (mkFs [("S", Dir [("a", Dir [])])] [])
    (components "/S/a/sub") (components "/S" ++ components "a")
  = Err (into_itself (components "/S/a/sub") (components "/S" ++ components "a"))
  /\ new_fs_guard (mkFs [("S", Dir [("a", Dir [])])] [])
       (components "/S/a/sub") (components "/S")
     = Err (into_itself (components "/S/a/sub") (components "/S")).
Proof.
  assert (new_fs_guard (mkFs [("S", Dir [("a", Dir [])])] [])
            (components "/S/a/sub") (components "/S" ++ components "a")
          = Err (into_itself (components "/S/a/sub") (components "/S" ++ components "a")))
    as Hdeep by (vm_compute; reflexivity).
  split; [exact Hdeep|].
  exact (rejection_extends_to_ancestors _ _ _ _ _ Hdeep).
Defined.

End GuardMore.

(** ** More on [parse_existing] *)

Section AdapterMore.
Import Mcp.
Context `{Serde}.

Lemma collect_entries_error (obj : list (Yaml * Yaml)) e : forall res : gmap string Json,
  collect_entries obj res = Err e ->
  exists k v, (k, v) ∈ obj /\ serde_json_to_value v = Err e.
Proof.
  induction obj as [|[k v] obj IH]; intros res Herr; simpl in Herr; [done|].
  destruct (serde_json_to_value v) as [json_v|e'] eqn:Hv.
  - destruct (IH _ Herr) as (k' & v' & Hin & Hv').
    exists k', v'. split; [apply elem_of_cons; by right | done].
  - injection Herr as <-. exists k, v. split; [apply elem_of_cons; by left | done].
Qed.

Lemma collect_entries_dom (obj : list (Yaml * Yaml)) : forall res out : gmap string Json,
  collect_entries obj res = Ok out ->
  dom out = list_to_set (key_str <$> obj.*1) ∪ dom res.
Proof.
  induction obj as [|[k v] obj IH]; intros res out Hout; simpl in Hout.
  - injection Hout as <-. simpl. set_solver.
  - destruct (serde_json_to_value v) as [json_v|]; [|done].
    rewrite (IH _ _ Hout), dom_insert_L. simpl. set_solver.
Qed.

Lemma collect_entries_distinct (obj : list (Yaml * Yaml)) :
  forall res out : gmap string Json,
  collect_entries obj res = Ok out ->
  NoDup (key_str <$> obj.*1) ->
  (forall name, name ∈ key_str <$> obj.*1 -> res !! name = None) ->
  size out = size res + length obj
  /\ forall k v json_v,
      (k, v) ∈ obj -> serde_json_to_value v = Ok json_v ->
      out !! key_str k = Some json_v.
Proof.
  induction obj as [|[k v] obj IH]; intros res out Hout Hnodup Hfresh.
  - simpl in Hout. injection Hout as <-. split; [simpl; lia|].
    intros k v json_v Hin. by apply elem_of_nil in Hin.
  - simpl in Hout, Hnodup. apply NoDup_cons in Hnodup as [Hk Hnodup].
    destruct (serde_json_to_value v) as [json_v|] eqn:Hv; [|done].
    destruct (IH _ _ Hout Hnodup) as [Hsize Hlookup].
    { intros name Hname. rewrite lookup_insert_ne by (intros <-; done).
      apply Hfresh. simpl. apply elem_of_cons; by right. }
    split.
    + rewrite Hsize, map_size_insert_None; [simpl; lia|].
      apply Hfresh. simpl. apply elem_of_cons; by left.
    + intros k' v' json_v' [[= -> ->]|Hin]%elem_of_cons Hv'.
      * rewrite (collect_entries_other _ _ _ _ Hout).
        -- rewrite lookup_insert_eq. congruence.
        -- apply Forall_forall. intros [k2 v2] Hin2 Heq. apply Hk.
           rewrite <- Heq. apply list_elem_of_fmap. exists k2. split; [done|].
           apply list_elem_of_fmap. by exists (k2, v2).
      * by eapply Hlookup.
Qed.

(** X4.  The YAML adapter reads nothing but the value under the wrapper
    key: without a wrapper key every parsable document gives the empty
    set, and two documents with the same value under the key give the
    same result, whatever their other keys hold. *)
Theorem yaml_reads_only_wrapper_value :
  (forall content parsed,
      serde_yaml_from_str content = Ok parsed ->
      new_yaml_parse_existing None content = Ok ∅
      /\ old_yaml_parse_existing None content = Ok ∅)
  /\ (forall key content1 content2 parsed1 parsed2,
      serde_yaml_from_str content1 = Ok parsed1 ->
      serde_yaml_from_str content2 = Ok parsed2 ->
      yaml_get parsed1 key = yaml_get parsed2 key ->
      new_yaml_parse_existing (Some key) content1
      = new_yaml_parse_existing (Some key) content2).
Proof.
  split.
  - intros content parsed Hparsed. rewrite <- yaml_parse_existing_pipeline.
    unfold new_yaml_parse_existing. by rewrite Hparsed.
  - intros key content1 content2 parsed1 parsed2 Hp1 Hp2 Hsame.
    rewrite (yaml_parse_existing_located _ _ _ Hp1).
    rewrite (yaml_parse_existing_located _ _ _ Hp2). by rewrite Hsame.
Qed.

(** X5.  The YAML adapter fails for two reasons only: the text does not
    parse, and the error is the parser's under the context "Failed to
    parse YAML"; or the text parses, a wrapper key is configured, its
    value is a mapping, and the error is that of converting one of the
    mapping's values. *)
Theorem yaml_error_sources (wrapper_key : option string) (content : string) (e : Error) :
  new_yaml_parse_existing wrapper_key content = Err e ->
  (exists cause,
      serde_yaml_from_str content = Err cause
      /\ e = WithContext "Failed to parse YAML" cause)
  \/ (exists key parsed obj k v,
      wrapper_key = Some key
      /\ serde_yaml_from_str content = Ok parsed
      /\ RsOption.and_then (yaml_get parsed key) as_mapping = Some obj
      /\ (k, v) ∈ obj
      /\ serde_json_to_value v = Err e).
Proof.
  unfold new_yaml_parse_existing.
  destruct (serde_yaml_from_str content) as [parsed|cause] eqn:Hparsed; simpl.
  - destruct wrapper_key as [key|]; simpl; [|done].
    destruct (RsOption.and_then (yaml_get parsed key) (fun v => as_mapping v))
      as [obj|] eqn:Hobj; [|done].
    intros (k & v & Hin & Hv)%collect_entries_error.
    right. by exists key, parsed, obj, k, v.
  - intros [= <-]. left. by exists cause.
Qed.

(** X6.  The Continue adapter never fails: for every text, parsable or
    not, with or without an [mcpServers] object, [parse_existing] returns
    a set of entries. *)
Theorem continue_never_fails (content : string) :
  exists res,
    new_continue_parse_existing content = Ok res
    /\ old_continue_parse_existing content = Ok res.
Proof.
  rewrite <- continue_parse_existing_pipeline.
  unfold new_continue_parse_existing. cbv zeta.
  destruct (RsOption.and_then _ _) as [obj|]; by eexists.
Qed.

(** X7.  When the names of the wrapper mapping's entries are pairwise
    distinct and every value converts, nothing is lost: the result has as
    many entries as the mapping, and each entry is found under its name
    with its converted value. *)
Theorem distinct_names_keep_all_entries
    (key content : string) (parsed : Yaml) (obj : list (Yaml * Yaml)) :
  serde_yaml_from_str content = Ok parsed ->
  RsOption.and_then (yaml_get parsed key) as_mapping = Some obj ->
  Forall (fun entry => exists json_v, serde_json_to_value entry.2 = Ok json_v) obj ->
  NoDup (key_str <$> obj.*1) ->
  exists res,
    new_yaml_parse_existing (Some key) content = Ok res
    /\ size res = length obj
    /\ forall k v json_v,
        (k, v) ∈ obj -> serde_json_to_value v = Ok json_v ->
        res !! key_str k = Some json_v.
Proof.
  intros Hparsed Hobj Hconv Hnodup.
  rewrite (yaml_parse_existing_located _ _ _ Hparsed), Hobj.
  destruct (collect_entries_total obj ∅ Hconv) as [res Hres].
  exists res. split; [done|].
  destruct (collect_entries_distinct _ _ _ Hres Hnodup) as [Hsize Hlookup]; [done|].
  rewrite map_size_empty in Hsize. done.
Qed.

(** X8.  The names in a successful result are exactly the names of the
    wrapper mapping's entries, a non-string key counting as the empty
    name. *)
Theorem parsed_names_are_entry_names
    (key content : string) (parsed : Yaml) (obj : list (Yaml * Yaml))
    (res : gmap string Json) :
  serde_yaml_from_str content = Ok parsed ->
  RsOption.and_then (yaml_get parsed key) as_mapping = Some obj ->
  new_yaml_parse_existing (Some key) content = Ok res ->
  dom res = list_to_set (key_str <$> obj.*1).
Proof.
  intros Hparsed Hobj. rewrite (yaml_parse_existing_located _ _ _ Hparsed), Hobj.
  intros Hres%collect_entries_dom. rewrite Hres. set_solver.
Qed.

End AdapterMore.

Section AdapterMoreExamples.
Import Mcp.
#[local] Existing Instance table_serde.

Lemma yaml_reads_only_wrapper_value_witness :
  serde_yaml_from_str yaml_wrapped_text = Ok yaml_wrapped_doc
  /\ new_yaml_parse_existing None yaml_wrapped_text = Ok ∅.
Proof.
  assert (serde_yaml_from_str yaml_wrapped_text = Ok yaml_wrapped_doc) as Hparsed
    by reflexivity.
  split; [exact Hparsed|].
  exact (proj1 (proj1 yaml_reads_only_wrapper_value _ _ Hparsed)).
Defined.

Lemma yaml_error_sources_witness :
  new_yaml_parse_existing (Some "mcpServers") yaml_sequence_key_text
    = Err (SerdeJsonError "key must be a string")
  /\ ((exists cause,
         serde_yaml_from_str yaml_sequence_key_text = Err cause
         /\ SerdeJsonError "key must be a string"
            = WithContext "Failed to parse YAML" cause)
      \/ (exists key parsed obj k v,
         Some "mcpServers" = Some key
         /\ serde_yaml_from_str yaml_sequence_key_text = Ok parsed
         /\ RsOption.and_then (yaml_get parsed key) as_mapping = Some obj
         /\ (k, v) ∈ obj
         /\ serde_json_to_value v = Err (SerdeJsonError "key must be a string"))).
Proof.
  assert (new_yaml_parse_existing (Some "mcpServers") yaml_sequence_key_text
          = Err (SerdeJsonError "key must be a string")) as Herr
    by (vm_compute; reflexivity).
  split; [exact Herr|].
  exact (yaml_error_sources _ _ _ Herr).
Defined.

Lemma distinct_names_keep_all_entries_witness :
  serde_yaml_from_str yaml_wrapped_text = Ok yaml_wrapped_doc
  /\ exists res,
      new_yaml_parse_existing (Some "mcpServers") yaml_wrapped_text = Ok res
      /\ size res = 2
      /\ forall k v json_v,
          (k, v) ∈ [(YString "github", YMapping [(YString "command", YString "gh")]);
                    (YNumber 7, YMapping [(YString "command", YString "x")])] ->
          serde_json_to_value v = Ok json_v ->
          res !! key_str k = Some json_v.
Proof.
  assert (serde_yaml_from_str yaml_wrapped_text = Ok yaml_wrapped_doc) as Hparsed
    by reflexivity.
  split; [exact Hparsed|].
  refine (distinct_names_keep_all_entries "mcpServers" yaml_wrapped_text yaml_wrapped_doc
            [(YString "github", YMapping [(YString "command", YString "gh")]);
             (YNumber 7, YMapping [(YString "command", YString "x")])]
            Hparsed eq_refl _ _).
  - repeat constructor; by eexists.
  - simpl. apply NoDup_cons. split; [|apply NoDup_singleton].
    intros Hin. apply list_elem_of_singleton in Hin. discriminate Hin.
Defined.

Lemma parsed_names_are_entry_names_witness :
  serde_yaml_from_str yaml_numeric_keys_text = Ok yaml_numeric_keys_doc
  /\ new_yaml_parse_existing (Some "mcpServers") yaml_numeric_keys_text
     = Ok {[ "" := JString "second"; "named" := JString "third" ]}
  /\ dom ({[ "" := JString "second"; "named" := JString "third" ]} : gmap string Json)
     = list_to_set
         (key_str <$> [(YNumber 1, YString "first"); (YNumber 2, YString "second");
                       (YString "named", YString "third")].*1).
Proof.
  assert (serde_yaml_from_str yaml_numeric_keys_text = Ok yaml_numeric_keys_doc)
    as Hparsed by reflexivity.
  assert (new_yaml_parse_existing (Some "mcpServers") yaml_numeric_keys_text
          = Ok {[ "" := JString "second"; "named" := JString "third" ]}) as Hres
    by (vm_compute; reflexivity).
  split; [exact Hparsed|]. split; [exact Hres|].
  exact (parsed_names_are_entry_names "mcpServers" _ _ _ _ Hparsed eq_refl Hres).
Defined.

End AdapterMoreExamples.
